(** * Lair Chat Python client: the message polling loop and the session

    A shallow embedding of [examples/python-client/lair_chat_client.py]:
    the [LairChatClient] session state, [get_messages], [_display_message],
    the body of [poll_messages] and the [start_message_polling] /
    [stop_message_polling] / [logout] methods.

    The definitions come first.
    - [Display]: JSON values, message dictionaries and [_display_message].
    - [Poll]: one polling thread in isolation, as a function of the list of
      HTTP outcomes it observes while [self.message_polling] stays true.
    - [Session]: the client object shared by the main thread and the
      polling threads, with an explicit clock, as a transition function
      driven by a schedule (which thread moves, which response arrives, how
      much time passes).
    - [Samples]: messages, fetch sequences and schedules used as examples.

    The properties follow, in [DisplayProps], [PollProps] and
    [SessionProps]; the last one also shows that every thread of [Session]
    follows [Poll.loop] on the responses it receives. *)

From Stdlib Require Import ZArith Lia Ascii String.
From stdpp Require Import gmap strings list sorting pretty.

Local Open Scope string_scope.
Local Open Scope list_scope.

(** ** Values and messages *)

(** The JSON scalars a message field can hold.  Nested arrays and objects
    are not needed: the client only formats top-level fields. *)
Inductive pyval :=
  | VNone
  | VBool (b : bool)
  | VInt (n : Z)
  | VStr (s : string).

#[global] Instance pyval_eq_dec : EqDecision pyval.
Proof. solve_decision. Defined.

(** A message is a [Dict[str, Any]]. *)
Abbreviation Message := (gmap string pyval).

(** [str(v)], as applied by an f-string replacement field. *)
Definition py_str (v : pyval) : string :=
  match v with
  | VNone => "None"
  | VBool true => "True"
  | VBool false => "False"
  | VInt n => pretty n
  | VStr s => s
  end.

(** [d.get(key, default)] *)
Definition dict_get (d : Message) (key : string) (dflt : pyval) : pyval :=
  default dflt (d !! key).

(** [s.replace('Z', '+00:00')] *)
Fixpoint replace_Z (s : string) : string :=
  match s with
  | EmptyString => EmptyString
  | String c rest =>
      if Ascii.eqb c "Z"%char then "+00:00" +:+ replace_Z rest
      else String c (replace_Z rest)
  end.

Module Display.
Section WithDatetime.

(** [datetime.fromisoformat] and [datetime.strftime('%H:%M:%S')] belong to
    the Python standard library; they are taken as parameters.
    [fromisoformat s = None] stands for the [ValueError] raised on a
    string that is not ISO-8601. *)
Context {datetime : Type}.
Variable fromisoformat : string -> option datetime.
Variable strftime_HMS : datetime -> string.

(** Lines 356-357, the body of the [try]: [None] when it raises. A
    timestamp that is not a string has no [replace] method
    ([AttributeError]); a string that does not parse makes
    [fromisoformat] raise [ValueError]. *)
Definition try_format (timestamp : pyval) : option string :=
  match timestamp with
  | VStr s => strftime_HMS <$> fromisoformat (replace_Z s)
  | _ => None
  end.

(** Lines 355-359: the bare [except] catches whatever was raised. *)
Definition time_str (timestamp : pyval) : pyval :=
  match try_format timestamp with
  | Some formatted => VStr formatted
  | None => timestamp
  end.

(** Lines 343-361: the line printed by [_display_message]. *)
Definition _display_message (message : Message) : string :=
  let timestamp := dict_get message "timestamp" (VStr "") in
  let author := dict_get message "author" (VStr "Unknown") in
  let content := dict_get message "content" (VStr "") in
  "[" +:+ py_str (time_str timestamp) +:+ "] " +:+ py_str author
      +:+ ": " +:+ py_str content.

End WithDatetime.
End Display.

(** ** Transport outcomes and [get_messages] *)

(** The exceptions [_make_request] raises (lines 82, 87, 89), and any other
    exception that leaves it, such as the [AttributeError] of [result.get]
    on a body that is not a dictionary (line 80). *)
Inductive request_error :=
  | NetworkError (e : string)
  | ApiError (error_msg : string)
  | InvalidJson
  | OtherError (text : string).

(** [str(e)]. *)
Definition exc_str (e : request_error) : string :=
  match e with
  | NetworkError e => "Network error: " +:+ e
  | ApiError m => "API Error: " +:+ m
  | InvalidJson => "Invalid JSON response from server"
  | OtherError text => text
  end.

(** What [_display_message] (lines 343-361) does on one element of the
    fetched list. *)
Inductive element :=
  | Dict (m : Message)         (* a dictionary whose line is printed *)
  | Raising (error : string).  (* the call raises an exception whose text is
                                  [error]: the element has no [get] (line
                                  350), or [print] rejects the line (361) *)

(** The value of [response.get('data', [])], by what lines 317-320 do with
    it.  A string behaves as the list of its characters, none of which has
    a [get]. *)
Inductive payload :=
  | Items (items : list element)            (* a list *)
  | NoLen (error : string)                  (* [len(messages)] raises: null,
                                               a number, a boolean *)
  | NoSlice (size : nat) (error : string).  (* a dictionary: it has a length
                                               and [messages[n:]] raises *)

(** What one call of [_make_request('GET', '/messages?...')] does: it raises,
    or returns a result dictionary of which only the ['data'] entry is read
    ([None] when the key is absent). *)
Inductive response :=
  | Raised (e : request_error)
  | Result (data : option payload).

(** A result whose ['data'] is a list of dictionaries that are all
    displayed. *)
Definition listing (messages : list Message) : response :=
  Result (Some (Items (Dict <$> messages))).

(** Lines 264-270: the value returned by [get_messages], and what it
    prints. *)
Definition get_messages (r : response) : payload * list string :=
  match r with
  | Result data => (default (Items []) data, [])
  | Raised e => (Items [], ["Failed to get messages: " +:+ exc_str e])
  end.

(** ** One polling thread *)

(** Observable actions of a polling thread. *)
Inductive event :=
  | EvFetch (room_id : string) (limit : nat)   (* get_messages(room_id, limit) *)
  | EvDisplay (msg : Message)                  (* self._display_message(msg) *)
  | EvPrint (line : string)                    (* any other print *)
  | EvSleep (ms : Z).                          (* time.sleep(interval), accepted *)

#[global] Instance event_eq_dec : EqDecision event.
Proof. solve_decision. Defined.

(** How the thread function ended. *)
Inductive exit_status :=
  | FlagCleared      (* the [while] test read False *)
  | Died.            (* an exception left [poll_messages] *)

(** [time.sleep] raises [ValueError] on a negative argument. *)
Definition sleep_ok (interval : Z) : bool := (0 <=? interval)%Z.

Definition sleep_error_line : string :=
  "Error polling messages: sleep length must be non-negative".

Module Poll.

(** Lines 320-321: the elements are displayed in order until one makes
    [_display_message] raise.  The result is the messages displayed and
    the exception, if any. *)
Fixpoint display_all (items : list element) : list Message * option string :=
  match items with
  | [] => ([], None)
  | Dict msg :: rest =>
      let '(shown, raised) := display_all rest in (msg :: shown, raised)
  | Raising error :: _ => ([], Some error)
  end.

(** Lines 317-322: the messages displayed in one cycle, the value of
    [last_message_count] after it, and the exception that left these
    lines, if any.  Line 322 is reached only when nothing raised. *)
Definition new_messages (last_message_count : nat) (messages : payload)
  : list Message * nat * option string :=
  match messages with
  | NoLen error => ([], last_message_count, Some error)
  | NoSlice size error =>
      if decide (last_message_count < size)
      then ([], last_message_count, Some error)
      else ([], last_message_count, None)
  | Items items =>
      if decide (last_message_count < length items)
      then match display_all (drop last_message_count items) with
           | (shown, None) => (shown, length items, None)
           | (shown, Some error) => (shown, last_message_count, Some error)
           end
      else ([], last_message_count, None)
  end.

(** Lines 326-328: the handler prints the exception and sleeps; on a
    negative interval that [time.sleep] raises out of the thread
    function.  The [print] of the handler, like that of [get_messages],
    is taken to succeed: the text of an exception is printable. *)
Definition handler (error : string) (interval : Z) : list event * bool :=
  (EvPrint ("Error polling messages: " +:+ error)
     :: (if sleep_ok interval then [EvSleep interval] else []),
   sleep_ok interval).

(** Lines 324-328: the [time.sleep(interval)] closing the [try] body.  On a
    negative interval it raises; the handler prints and sleeps again, which
    raises out of the thread function. *)
Definition sleep_step (interval : Z) : list event * bool :=
  if sleep_ok interval then ([EvSleep interval], true)
  else ([EvPrint sleep_error_line], false).

(** Lines 324-328: how a cycle ends after lines 315-322, which raised
    [raised] or nothing. *)
Definition ending (raised : option string) (interval : Z)
  : list event * bool :=
  match raised with
  | None => sleep_step interval
  | Some error => handler error interval
  end.

(** Lines 314-328: one iteration of the [while] body. The result is the
    events, the new [last_message_count] and whether the loop goes on. *)
Definition iteration (room_id : string) (interval : Z)
    (last_message_count : nat) (r : response) : list event * nat * bool :=
  let '(messages, printed) := get_messages r in
  let '(new, last', raised) := new_messages last_message_count messages in
  let '(closing, alive) := ending raised interval in
  (EvFetch room_id 10 :: (EvPrint <$> printed) ++ (EvDisplay <$> new) ++ closing,
   last', alive).

Record outcome := {
  events : list event;
  cursor : nat;              (* final [last_message_count] *)
  status : exit_status
}.

(** Lines 310-328.  [rs] lists the outcome of the HTTP request of each
    cycle entered with [self.message_polling] true; after the last one the
    flag is read false. *)
Fixpoint loop (room_id : string) (interval : Z) (last_message_count : nat)
    (rs : list response) : outcome :=
  match rs with
  | [] => {| events := []; cursor := last_message_count; status := FlagCleared |}
  | r :: rs' =>
      let '(evs, last', alive) := iteration room_id interval last_message_count r in
      if alive then
        let o := loop room_id interval last' rs' in
        {| events := evs ++ events o; cursor := cursor o; status := status o |}
      else {| events := evs; cursor := last'; status := Died |}
  end.

(** [poll_messages] starts with [last_message_count = 0]. *)
Definition poll_messages (room_id : string) (interval : Z) (rs : list response)
  : outcome := loop room_id interval 0 rs.

(** The messages delivered, in order. *)
Definition displayed (evs : list event) : list Message :=
  omap (fun e => match e with EvDisplay m => Some m | _ => None end) evs.

(** *** The room's stream of messages

    [stream] lists the messages of the room in arrival order. *)
Section Stream.
Variable stream : list Message.

(** The response [r] carries a run of the stream that starts at position
    [a], as a list of dictionaries that are all displayed.  A failed
    request and an empty answer carry the empty run. *)
Definition window_of (a : nat) (r : response) : Prop :=
  exists w, (get_messages r).1 = Items (Dict <$> w)
            /\ w = take (length w) (drop a stream).

(** Each response carries a run of the stream and no run starts before
    an earlier one: the server appends at the tail and trims at the
    head. *)
Definition sliding (offs : list nat) (rs : list response) : Prop :=
  Forall2 window_of offs rs /\ StronglySorted le offs.
End Stream.

End Poll.

(** ** The client object and its threads *)

(** [str.lower()] on the ASCII letters of a header name. *)
Definition lower_ascii (c : ascii) : ascii :=
  let n := nat_of_ascii c in
  if decide (65 <= n <= 90) then ascii_of_nat (n + 32) else c.

Fixpoint lower (s : string) : string :=
  match s with
  | EmptyString => EmptyString
  | String c rest => String (lower_ascii c) (lower rest)
  end.

(** [str.rstrip('/')] *)
Fixpoint rstrip_slash (s : string) : string :=
  match s with
  | EmptyString => EmptyString
  | String c rest =>
      let rest' := rstrip_slash rest in
      if Ascii.eqb c "/"%char && String.eqb rest' "" then "" else String c rest'
  end.

(** [requests.Session().headers] is a case-insensitive dictionary: entries
    are stored under the lower-cased key, with the key as last written. *)
Module Headers.
Abbreviation t := (gmap string (string * string)).
Definition contains (key : string) (h : t) : bool :=
  bool_decide (is_Some (h !! lower key)).
Definition set (key value : string) (h : t) : t :=
  <[lower key := (key, value)]> h.
Definition del (key : string) (h : t) : t := delete (lower key) h.
End Headers.

Module Session.

(** The attributes of a [LairChatClient] (lines 38-49 and 308).  A thread
    object is represented by its index in the list of threads created. *)
Record client := {
  base_url : string;
  headers : Headers.t;
  token : option string;
  user_info : option Message;
  current_room : option Message;
  message_polling : bool;
  polling_thread : option nat;
  current_room_id : option string
}.

(** Lines 31-49: [__init__]. *)
Definition new_client (url : string) : client := {|
  base_url := rstrip_slash url;
  headers := Headers.set "User-Agent" "LairChatPythonClient/1.0"
               (Headers.set "Content-Type" "application/json" ∅);
  token := None;
  user_info := None;
  current_room := None;
  message_polling := false;
  polling_thread := None;
  current_room_id := None
|}.

Definition set_message_polling (b : bool) (c : client) : client := {|
  base_url := base_url c; headers := headers c; token := token c;
  user_info := user_info c; current_room := current_room c;
  message_polling := b;
  polling_thread := polling_thread c; current_room_id := current_room_id c
|}.

(** Lines 337-340, up to the call of [join]: [None] when the flag was
    already false (the method does nothing), otherwise the client with the
    flag cleared and the thread to join, if any. *)
Definition stop_enter (c : client) : option (client * option nat) :=
  if message_polling c
  then Some (set_message_polling false c, polling_thread c)
  else None.

Definition stopped_line : string := "Stopped message polling".

(** Lines 335-341 as seen by the caller: [join] reads and writes no
    attribute of the client. *)
Definition stop_message_polling (c : client) : client * list string :=
  match stop_enter c with
  | Some (c', _) => (c', [stopped_line])
  | None => (c, [])
  end.

(** Lines 171-178: [logout] after its call of [stop_message_polling]. *)
Definition logout_tail (c : client) : client * list string :=
  ({| base_url := base_url c;
      headers := if Headers.contains "Authorization" (headers c)
                 then Headers.del "Authorization" (headers c)
                 else headers c;
      token := None;
      user_info := None;
      current_room := None;
      message_polling := message_polling c;
      polling_thread := polling_thread c;
      current_room_id := current_room_id c |},
   ["Logged out successfully"]).

(** Lines 167-178. *)
Definition logout (c : client) : client * list string :=
  let '(c1, out1) := stop_message_polling c in
  let '(c2, out2) := logout_tail c1 in
  (c2, out1 ++ out2).

(** Lines 307-333: [start_message_polling] after its conditional call of
    [stop_message_polling]; [t] is the thread object created at line 330. *)
Definition start_tail (room : string) (t : nat) (c : client)
  : client * list string :=
  ({| base_url := base_url c; headers := headers c; token := token c;
      user_info := user_info c; current_room := current_room c;
      message_polling := true;
      polling_thread := Some t;
      current_room_id := Some room |},
   ["Started message polling for room " +:+ room]).

(** *** Polling threads, step by step *)

(** Where a polling thread stands in lines 310-328. *)
Inductive pc :=
  | AtWhile                                  (* about to test the flag *)
  | InFetch                                  (* request sent, no response yet *)
  | InFor (pending : list element) (n : nat) (* line 320; n = len(messages) *)
  | InSleep (until : Z)                      (* line 324, returns at [until] *)
  | Exited (how : exit_status).

Record thread := {
  room_id : string;
  interval : Z;
  last_message_count : nat;
  at_pc : pc
}.

Definition at_ (p : pc) (th : thread) : thread :=
  {| room_id := room_id th; interval := interval th;
     last_message_count := last_message_count th; at_pc := p |}.

Definition with_count (n : nat) (th : thread) : thread :=
  {| room_id := room_id th; interval := interval th;
     last_message_count := n; at_pc := at_pc th |}.

Definition alive (th : thread) : bool :=
  match at_pc th with Exited _ => false | _ => true end.

(** Lines 324-328 at time [now]. *)
Definition go_sleep (now : Z) (th : thread) : thread * list event :=
  if sleep_ok (interval th)
  then (at_ (InSleep (now + interval th)) th, [EvSleep (interval th)])
  else (at_ (Exited Died) th, [EvPrint sleep_error_line]).

(** Lines 326-328 at time [now]: an exception with text [error] left the
    [try] body; [last_message_count] keeps its value. *)
Definition go_handler (now : Z) (error : string) (th : thread)
  : thread * list event :=
  (if sleep_ok (interval th)
   then at_ (InSleep (now + interval th)) th
   else at_ (Exited Died) th,
   (Poll.handler error (interval th)).1).

(** The thread runs to its next statement; [None] when it is blocked or
    has ended.  [flag] is the current value of [self.message_polling]. *)
Definition poller_run (flag : bool) (now : Z) (th : thread)
  : option (thread * list event) :=
  match at_pc th with
  | AtWhile =>
      if flag then Some (at_ InFetch th, [EvFetch (room_id th) 10])
      else Some (at_ (Exited FlagCleared) th, [])
  | InFetch => None
  | InFor (Dict msg :: rest) n => Some (at_ (InFor rest n) th, [EvDisplay msg])
  | InFor (Raising error :: _) n => Some (go_handler now error th)
  | InFor [] n => Some (go_sleep now (with_count n th))
  | InSleep until =>
      if decide (until <= now)%Z then Some (at_ AtWhile th, []) else None
  | Exited _ => None
  end.

(** The pending request of the thread completes with [r]: lines 315-319. *)
Definition poller_respond (now : Z) (r : response) (th : thread)
  : option (thread * list event) :=
  match at_pc th with
  | InFetch =>
      let '(messages, printed) := get_messages r in
      let '(th', evs) :=
        match messages with
        | NoLen error => go_handler now error th
        | NoSlice size error =>
            if decide (last_message_count th < size)
            then go_handler now error th
            else go_sleep now th
        | Items items =>
            if decide (last_message_count th < length items)
            then (at_ (InFor (drop (last_message_count th) items)
                             (length items)) th, [])
            else go_sleep now th
        end in
      Some (th', (EvPrint <$> printed) ++ evs)
  | _ => None
  end.

(** *** The whole system *)

Inductive call :=
  | CallStart (room : string) (interval : Z)
  | CallStop
  | CallLogout.

(** The main thread is between two calls, or blocked in
    [self.polling_thread.join(timeout=1.0)] on behalf of call [k]. *)
Inductive main_pc :=
  | Idle
  | InJoin (t : nat) (deadline : Z) (k : call).

Inductive entry :=
  | ByPoller (t : nat) (e : event)
  | Finished (t : nat)
  | Called (c : call)
  | Returned (c : call)
  | Spawned (t : nat)
  | Joined (t : nat) (exited : bool)   (* false: the join timed out *)
  | MainPrint (line : string).

Record system := {
  now : Z;                 (* milliseconds *)
  cl : client;
  threads : list thread;
  main : main_pc;
  log : list entry         (* oldest first *)
}.

Definition init (url : string) : system :=
  {| now := 0; cl := new_client url; threads := []; main := Idle; log := [] |}.

Definition join_timeout : Z := 1000.

Definition is_alive (ths : list thread) (t : nat) : bool :=
  match ths !! t with Some th => alive th | None => false end.

(** The part of call [k] that follows its use of [stop_message_polling]. *)
Definition finish (k : call) (s : system) : system :=
  match k with
  | CallStop =>
      {| now := now s; cl := cl s; threads := threads s; main := Idle;
         log := log s ++ [Returned k] |}
  | CallLogout =>
      let '(c, out) := logout_tail (cl s) in
      {| now := now s; cl := c; threads := threads s; main := Idle;
         log := log s ++ (MainPrint <$> out) ++ [Returned k] |}
  | CallStart room ival =>
      let t := length (threads s) in
      let '(c, out) := start_tail room t (cl s) in
      {| now := now s; cl := c;
         threads := threads s ++ [{| room_id := room; interval := ival;
                                     last_message_count := 0;
                                     at_pc := AtWhile |}];
         main := Idle;
         log := log s ++ [Spawned t] ++ (MainPrint <$> out) ++ [Returned k] |}
  end.

(** [stop_message_polling] called on behalf of [k], up to the point where
    the main thread blocks in [join]. *)
Definition enter_stop (k : call) (s : system) : system :=
  match stop_enter (cl s) with
  | None => finish k s
  | Some (c, None) =>
      finish k {| now := now s; cl := c; threads := threads s;
                  main := main s; log := log s ++ [MainPrint stopped_line] |}
  | Some (c, Some t) =>
      {| now := now s; cl := c; threads := threads s;
         main := InJoin t (now s + join_timeout) k; log := log s |}
  end.

(** The main thread calls a method of the client. *)
Definition invoke (k : call) (s : system) : option system :=
  match main s with
  | Idle =>
      let s0 := {| now := now s; cl := cl s; threads := threads s;
                   main := main s; log := log s ++ [Called k] |} in
      match k with
      | CallStart _ _ =>
          (* line 304 *)
          if message_polling (cl s0) then Some (enter_stop k s0)
          else Some (finish k s0)
      | CallStop | CallLogout => Some (enter_stop k s0)
      end
  | InJoin _ _ _ => None
  end.

(** [join(timeout=1.0)] returns: the thread has ended, or the timeout has
    elapsed. Line 341 and the rest of the calling method follow. *)
Definition resume (s : system) : option system :=
  match main s with
  | InJoin t deadline k =>
      let exited := negb (is_alive (threads s) t) in
      if exited || bool_decide (deadline <= now s)%Z then
        Some (finish k {| now := now s; cl := cl s; threads := threads s;
                          main := main s;
                          log := log s ++ [Joined t exited;
                                           MainPrint stopped_line] |})
      else None
  | Idle => None
  end.

Inductive action :=
  | Tick (d : Z)                       (* [d] milliseconds pass *)
  | Run (t : nat)                      (* polling thread [t] moves *)
  | Respond (t : nat) (r : response)   (* the request of [t] completes *)
  | Invoke (k : call)                  (* the main thread calls a method *)
  | Resume.                            (* the main thread leaves [join] *)

Definition exit_entries (t : nat) (th : thread) : list entry :=
  if alive th then [] else [Finished t].

Definition update_thread (t : nat) (s : system)
    (res : option (thread * list event)) : option system :=
  '(th', evs) ← res;
  Some {| now := now s; cl := cl s; threads := <[t := th']> (threads s);
          main := main s;
          log := log s ++ (ByPoller t <$> evs) ++ exit_entries t th' |}.

Definition step (s : system) (a : action) : option system :=
  match a with
  | Tick d =>
      if decide (0 <= d)%Z
      then Some {| now := now s + d; cl := cl s; threads := threads s;
                   main := main s; log := log s |}
      else None
  | Run t =>
      th ← threads s !! t;
      update_thread t s (poller_run (message_polling (cl s)) (now s) th)
  | Respond t r =>
      th ← threads s !! t;
      update_thread t s (poller_respond (now s) r th)
  | Invoke k => invoke k s
  | Resume => resume s
  end.

Fixpoint run (s : system) (acts : list action) : option system :=
  match acts with
  | [] => Some s
  | a :: acts' => s' ← step s a; run s' acts'
  end.

(** The deliveries recorded for thread [t]. *)
Definition delivered_by (t : nat) (l : list entry) : list Message :=
  omap (fun e => match e with
                 | ByPoller t' (EvDisplay m) =>
                     if decide (t' = t) then Some m else None
                 | _ => None
                 end) l.

(** Everything recorded for thread [t]. *)
Definition thread_events (t : nat) (l : list entry) : list event :=
  omap (fun e => match e with
                 | ByPoller t' ev => if decide (t' = t) then Some ev else None
                 | _ => None
                 end) l.

(** The responses a schedule hands to thread [t]. *)
Definition responses_to (t : nat) (acts : list action) : list response :=
  omap (fun a => match a with
                 | Respond t' r => if decide (t' = t) then Some r else None
                 | _ => None
                 end) acts.

(** No [join] has timed out. *)
Definition joins_completed (l : list entry) : Prop :=
  forall t, Joined t false ∉ l.

(** Whatever a polling thread does after the creation of thread [t'] is
    done by [t'] or by a thread created later. *)
Definition in_creation_order (l : list entry) : Prop :=
  forall i j t' t e,
    l !! i = Some (Spawned t') -> l !! j = Some (ByPoller t e) ->
    i < j -> t' <= t.

(** What holds of every state the system can reach. *)
Record inv (s : system) : Prop := {
  inv_latest : forall t,
    polling_thread (cl s) = Some t -> S t = length (threads s);
  inv_spawned : forall t, Spawned t ∈ log s -> t < length (threads s);
  inv_join : forall t d k,
    main s = InJoin t d k ->
    polling_thread (cl s) = Some t /\ message_polling (cl s) = false;
  inv_started : forall room ival,
    last (log s) = Some (Returned (CallStart room ival)) ->
    exists t, polling_thread (cl s) = Some t
              /\ is_alive (threads s) t = true;
  inv_stopped :
    last (log s) = Some (Returned CallStop) ->
    main s = Idle /\ message_polling (cl s) = false;
  inv_sole : joins_completed (log s) ->
    forall t, is_alive (threads s) t = true -> polling_thread (cl s) = Some t;
  inv_order : joins_completed (log s) -> in_creation_order (log s);
  inv_quiet : joins_completed (log s) ->
    main s = Idle -> message_polling (cl s) = false ->
    forall t, is_alive (threads s) t = false
}.

(** The states in which the tail of a call runs: the flag is false and,
    if no join has timed out, every polling thread has ended. *)
Record ready (s : system) : Prop := {
  ready_latest : forall t,
    polling_thread (cl s) = Some t -> S t = length (threads s);
  ready_spawned : forall t, Spawned t ∈ log s -> t < length (threads s);
  ready_flag : message_polling (cl s) = false;
  ready_order : joins_completed (log s) -> in_creation_order (log s);
  ready_quiet : joins_completed (log s) ->
    forall t, is_alive (threads s) t = false
}.

(** A thread as [start_message_polling] creates it. *)
Definition fresh (th : thread) : Prop :=
  at_pc th = AtWhile /\ last_message_count th = 0.

(** What a step of the main thread leaves in place: the threads created so
    far, and a log extended by entries of the main thread only. *)
Definition main_frame (s s' : system) : Prop :=
  (exists extra, threads s' = threads s ++ extra /\ Forall fresh extra)
  /\ exists news, log s' = log s ++ news /\ forall t e, ByPoller t e ∉ news.

(** During a call of [logout]: the call is over with the client [logout]
    computes, or the main thread is in [join] with the client
    [stop_message_polling] leaves. *)
Definition logging_out (c : client) (s : system) : Prop :=
  (main s = Idle /\ cl s = (logout c).1)
  \/ (exists t d, main s = InJoin t d CallLogout
                  /\ cl s = (stop_message_polling c).1).

(** The thread [th], having logged [evs] and received [rs], stands where
    [Poll.loop] stands on [rs]. *)
Definition tracks (th : thread) (evs : list event) (rs : list response)
  : Prop :=
  let on := Poll.loop (room_id th) (interval th) 0 in
  let stands evs0 st :=
    {| Poll.events := evs0; Poll.cursor := last_message_count th;
       Poll.status := st |} in
  match at_pc th with
  | AtWhile | InSleep _ | Exited FlagCleared => on rs = stands evs FlagCleared
  | Exited Died => on rs = stands evs Died
  | InFetch =>
      exists evs0, evs = evs0 ++ [EvFetch (room_id th) 10]
                   /\ on rs = stands evs0 FlagCleared
  | InFor pending n =>
      exists rs0 r evs0 items done_,
        rs = rs0 ++ [r]
        /\ on rs0 = stands evs0 FlagCleared
        /\ (get_messages r).1 = Items items
        /\ last_message_count th < length items
        /\ n = length items
        /\ (Dict <$> done_) ++ pending = drop (last_message_count th) items
        /\ evs = evs0 ++ EvFetch (room_id th) 10
                   :: (EvPrint <$> (get_messages r).2) ++ (EvDisplay <$> done_)
  end.

(** Every thread of the system tracks the loop on the responses [resp]
    assigns to it. *)
Record simulates (s : system) (resp : nat -> list response) : Prop := {
  sim_threads : forall t th,
    threads s !! t = Some th -> tracks th (thread_events t (log s)) (resp t);
  sim_known : forall t e, ByPoller t e ∈ log s -> t < length (threads s);
  sim_unborn : forall t, length (threads s) <= t -> resp t = []
}.

End Session.

(** ** Sample data *)

Module Samples.
Import Session.

Definition url : string := "http://127.0.0.1:8082/api/v1".

Definition msg (n : Z) (author content : string) : Message :=
  {[ "id" := VInt n; "author" := VStr author; "content" := VStr content;
     "timestamp" := VStr "2024-05-01T10:15:30Z" ]}.

Definition m1 := msg 1 "ada" "hello".
Definition m2 := msg 2 "bob" "hi ada".
Definition m3 := msg 3 "ada" "how are you".
Definition m4 := msg 4 "bob" "fine".

(** [stop_message_polling] is called while the first request is in
    flight; the request takes five seconds. *)
Definition stop_during_fetch : list action :=
  [ Invoke (CallStart "general" 2000);
    Run 0;                               (* loop head, request sent *)
    Invoke CallStop;                     (* flag cleared, join begins *)
    Tick 1000;
    Resume;                              (* the join times out *)
    Tick 4000;
    Respond 0 (listing [m1]);
    Run 0 ].                             (* line 321 *)

(** [start_message_polling] is called again half a second into the two
    second sleep of the running loop. *)
Definition restart_during_sleep : list action :=
  [ Invoke (CallStart "general" 2000);
    Run 0;
    Respond 0 (listing []);        (* nothing yet, sleep till 2000 *)
    Tick 500;
    Invoke (CallStart "random" 2000);    (* flag cleared, join begins *)
    Tick 1000;
    Resume;                              (* join times out; flag set again *)
    Run 1;
    Tick 500;
    Run 0;                               (* first thread wakes up *)
    Run 0;                               (* and reads the flag: true *)
    Respond 0 (listing [m1]);
    Run 0;                               (* first thread displays m1 *)
    Respond 1 (listing [m2]);
    Run 1 ].                             (* second thread displays m2 *)

(** A loop is stopped only once its thread has woken up and left. *)
Definition stop_then_wait : list action :=
  [ Invoke (CallStart "general" 2000);
    Run 0;
    Respond 0 (listing [m1]);
    Run 0;                               (* display m1 *)
    Run 0;                               (* sleep till 2000 *)
    Tick 1500;
    Invoke CallStop;                     (* join until 2500 *)
    Tick 500;
    Run 0;                               (* wakes up *)
    Run 0;                               (* reads the flag: false *)
    Resume ].                            (* the thread has ended *)

Definition later_on : list action :=
  [ Tick 100;
    Invoke (CallStart "general" 2000);
    Run 1;
    Respond 1 (listing [m1; m2]);
    Run 1 ].


(** A stand-in for [datetime.fromisoformat] and [strftime('%H:%M:%S')]:
    it accepts [YYYY-MM-DDTHH:MM:SS], followed by anything, and keeps the
    clock part. *)
Definition is_digit (c : ascii) : bool :=
  let n := nat_of_ascii c in bool_decide (48 <= n <= 57).

Fixpoint matches (pattern s : string) : bool :=
  match pattern, s with
  | EmptyString, _ => true
  | String p pattern', String c s' =>
      (if Ascii.eqb p "d"%char then is_digit c else Ascii.eqb p c)
      && matches pattern' s'
  | String _ _, EmptyString => false
  end.

Definition iso_sample (s : string) : option string :=
  if matches "dddd-dd-ddTdd:dd:dd" s then Some (String.substring 11 8 s)
  else None.

Definition clock (hms : string) : string := hms.

(** A room whose history is trimmed at the head while it grows. *)
Definition m5 := msg 5 "ada" "good".
Definition m6 := msg 6 "bob" "bye".
Definition stream : list Message := [m1; m2; m3; m4; m5; m6].

Definition fetched : list response :=
  [ listing [m1; m2];
    Raised (NetworkError "connection refused");
    listing [m1; m2; m3];
    listing [m3];                  (* trimmed *)
    listing [m3; m4; m5; m6] ].    (* grown again *)

Definition offsets : list nat := [0; 0; 0; 2; 2].

End Samples.


(** ** Further parts of the client *)

Module Windows.

(** The value of [len(messages)], 0 where it raises. *)
Definition size (messages : payload) : nat :=
  match messages with
  | Items items => length items
  | NoLen _ => 0
  | NoSlice n _ => n
  end.

(** The length of the longest window among the answers [rs]. *)
Definition longest (rs : list response) : nat :=
  foldr (fun r acc => size (get_messages r).1 `max` acc) 0 rs.

(** The answer carries a list of dictionaries that are all displayed (the
    empty list for a failed request or an absent ['data']). *)
Definition clean (r : response) : Prop :=
  exists w, (get_messages r).1 = Items (Dict <$> w).

End Windows.

Module Restart.
Import Session.




End Restart.

Module MoreSamples.
Import Session.



Definition polling : list action :=
  [ Invoke (CallStart "general" 2000); Run 0 ].

Definition join_times_out : list action :=
  [ Tick 1000; Resume; Respond 0 (listing [Samples.m1]); Run 0 ].

(** The server answers with a list whose second element is a string. *)
Definition mixed : response :=
  Result (Some (Items [Dict Samples.m1;
                       Raising "'str' object has no attribute 'get'"])).

(** Two cycles on that answer: line 321 raises on the second element,
    the handler prints and sleeps, and the next cycle starts over. *)
Definition element_without_get : list action :=
  [ Invoke (CallStart "general" 2000);
    Run 0;
    Respond 0 mixed;
    Run 0;                               (* the first element is displayed *)
    Run 0;                               (* line 321 raises; lines 327-328 *)
    Tick 2000;
    Run 0; Run 0;
    Respond 0 mixed;
    Run 0 ].                             (* displayed again *)

End MoreSamples.

(** ** [_make_request] and the methods built on it *)

Module Api.

(** What [response.json()] returns. Numbers are integers here. *)
#[warnings="-register-all"]
Inductive json :=
  | JNull
  | JBool (b : bool)
  | JNum (n : Z)
  | JStr (s : string)
  | JArr (items : list json)
  | JObj (fields : gmap string json).

(** [bool(v)] *)
Definition truthy (v : json) : bool :=
  match v with
  | JNull => false
  | JBool b => b
  | JNum n => negb (n =? 0)%Z
  | JStr s => negb (String.eqb s "")
  | JArr items => negb (bool_decide (length items = 0))
  | JObj fields => negb (bool_decide (size fields = 0))
  end.

(** [type(v).__name__] *)
Definition type_name (v : json) : string :=
  match v with
  | JNull => "NoneType"
  | JBool _ => "bool"
  | JNum _ => "int"
  | JStr _ => "str"
  | JArr _ => "list"
  | JObj _ => "dict"
  end.

(** The exceptions met in this part of the client, with [str(e)]. *)
Inductive exn :=
  | RequestException (msg : string)
  | ValueError (msg : string)
  | AttributeError (msg : string).

Definition exn_str (e : exn) : string :=
  match e with
  | RequestException msg | ValueError msg | AttributeError msg => msg
  end.

(** [v.get(key, dflt)]: only a dictionary has the method. *)
Definition get_or (key : string) (dflt : json) (v : json) : exn + json :=
  match v with
  | JObj fields => inr (default dflt (fields !! key))
  | _ => inl (AttributeError
                ("'" +:+ type_name v +:+ "' object has no attribute 'get'"))
  end.

(** [v == s] for a string literal [s]. *)
Definition is_str (s : string) (v : json) : bool :=
  match v with JStr s' => String.eqb s' s | _ => false end.

(** How [response.json()] fails on a body that is not JSON, as the
    [except] clauses of lines 86-89 see it: the exception is a
    [RequestException] (requests 2.27 and later), or a
    [json.JSONDecodeError] that is not one (earlier versions on the
    standard [json] module), or neither (earlier versions on
    [simplejson]). *)
Inductive decode_failure :=
  | AsRequestException (msg : string)
  | AsJSONDecodeError
  | Uncaught (e : exn).

Inductive body :=
  | Json (result : json)
  | NotJson (how : decode_failure).

(** What [self.session.request(method, url, **kwargs)] does: it raises a
    [RequestException], or returns a response with a status code, the
    text [raise_for_status] puts in its [HTTPError] for that status, and a
    body. *)
Inductive http_outcome :=
  | RequestFails (msg : string)
  | Reply (status : nat) (http_error_msg : string) (content : body).

(** [raise_for_status] raises on the client and server error codes. *)
Definition is_error_status (status : nat) : bool :=
  bool_decide (400 <= status < 600).

Section WithRepr.

(** [str] of a list or a dictionary is left to the library. *)
Variable repr_compound : json -> string.

(** [str(v)], as an f-string applies it. *)
Definition json_str (v : json) : string :=
  match v with
  | JNull => "None"
  | JBool true => "True"
  | JBool false => "False"
  | JNum n => pretty n
  | JStr s => s
  | JArr _ | JObj _ => repr_compound v
  end.

(** Lines 79-82: the check of the ['success'] entry. *)
Definition check_success (result : json) : exn + json :=
  match get_or "success" (JBool true) result with
  | inl e => inl e
  | inr success =>
      if truthy success then inr result
      else
        match get_or "error" (JObj ∅) result with
        | inl e => inl e
        | inr error =>
            match get_or "message" (JStr "Unknown API error") error with
            | inl e => inl e
            | inr error_msg =>
                inl (ValueError ("API Error: " +:+ json_str error_msg))
            end
        end
  end.

(** Lines 73-89: [inl e] when the method raises [e]. *)
Definition _make_request (o : http_outcome) : exn + json :=
  match o with
  | RequestFails msg => inl (RequestException ("Network error: " +:+ msg))
  | Reply status http_error_msg content =>
      if is_error_status status
      then inl (RequestException ("Network error: " +:+ http_error_msg))
      else
        match content with
        | NotJson (AsRequestException msg) =>
            inl (RequestException ("Network error: " +:+ msg))
        | NotJson AsJSONDecodeError =>
            inl (ValueError "Invalid JSON response from server")
        | NotJson (Uncaught e) => inl e
        | Json result => check_success result
        end
  end.

(** Lines 91-103: the value returned and the lines printed. *)
Definition test_connection (o : http_outcome) : bool * list string :=
  let failed e := (false, ["Connection test failed: " +:+ exn_str e]) in
  match _make_request o with
  | inl e => failed e
  | inr response =>
      match get_or "data" (JObj ∅) response with
      | inl e => failed e
      | inr data =>
          match get_or "status" JNull data with
          | inl e => failed e
          | inr status => (is_str "ok" status, [])
          end
      end
  end.

(** Lines 194-206. *)
Definition get_rooms (o : http_outcome) : json * list string :=
  let failed e := (JArr [], ["Failed to get rooms: " +:+ exn_str e]) in
  match _make_request o with
  | inl e => failed e
  | inr response =>
      match get_or "data" (JArr []) response with
      | inl e => failed e
      | inr data => (data, [])
      end
  end.

End WithRepr.

End Api.

(** ** [__init__] and [login] *)

Module Auth.
Import Session.

(** The entries [login] reads in the result of [_make_request], typed as
    the attributes they are stored in: [None] for an absent or null
    entry. *)
Record login_result := {
  access_token : option string;
  user : option Message
}.

(** [bool(token)] *)
Definition token_given (tok : option string) : option string :=
  match tok with
  | Some t => if String.eqb t "" then None else Some t
  | None => None
  end.

Definition no_get_on_none : string :=
  "'NoneType' object has no attribute 'get'".

(** Lines 143-165: the client after the call, the value returned and the
    lines printed; [inl e] when [_make_request] raised [e]. *)
Definition login (r : Api.exn + login_result) (c : client)
  : client * bool * list string :=
  match r with
  | inl e => (c, false, ["Login failed: " +:+ Api.exn_str e])
  | inr response =>
      let stored h :=
        {| base_url := base_url c; headers := h;
           token := access_token response;
           user_info := user response;
           current_room := current_room c;
           message_polling := message_polling c;
           polling_thread := polling_thread c;
           current_room_id := current_room_id c |} in
      match token_given (access_token response) with
      | Some t =>
          let c' := stored (Headers.set "Authorization" ("Bearer " +:+ t)
                              (headers c)) in
          match user response with
          | Some u =>
              (c', true,
               ["Login successful! Welcome, "
                  +:+ py_str (dict_get u "username" (VStr "User"))])
          | None => (c', false, ["Login failed: " +:+ no_get_on_none])
          end
      | None => (stored (headers c), false, ["Login failed: No token received"])
      end
  end.

(** Line 67: the URL a request goes to. *)
Definition request_url (c : client) (endpoint : string) : string :=
  base_url c +:+ endpoint.

(** [n] slashes. *)
Fixpoint slashes (n : nat) : string :=
  match n with 0 => "" | S n' => String "/"%char (slashes n') end.

End Auth.

(** ** The demo *)

Module Demo.

(** Line 463: [messages[-5:]], the messages shown on entering a room. *)
Definition recent {A} (messages : list A) : list A :=
  drop (length messages - 5) messages.

End Demo.


(** * Properties of [_display_message] *)

Module DisplayProps.
Section WithDatetime.
Context {datetime : Type}.
Variable fromisoformat : string -> option datetime.
Variable strftime_HMS : datetime -> string.

(** A timestamp that is not a string is shown through [str]. *)
Lemma time_str_not_str timestamp :
  (forall s, timestamp <> VStr s) ->
  Display.time_str fromisoformat strftime_HMS timestamp = timestamp.
Proof. intros H. destruct timestamp; try done. by destruct (H s). Qed.


End WithDatetime.


Example well_formed_timestamp :
  Display._display_message Samples.iso_sample Samples.clock Samples.m1
  = "[10:15:30] ada: hello".
Proof. reflexivity. Qed.

Example missing_fields :
  Display._display_message Samples.iso_sample Samples.clock ∅
  = "[] Unknown: ".
Proof. reflexivity. Qed.

Example null_timestamp :
  Display._display_message Samples.iso_sample Samples.clock
    {[ "timestamp" := VNone; "content" := VInt 42 ]}
  = "[None] Unknown: 42".
Proof. reflexivity. Qed.

End DisplayProps.


(** * Properties of one polling thread *)

Module PollProps.
Import Poll.

Lemma displayed_app (l1 l2 : list event) :
  displayed (l1 ++ l2) = displayed l1 ++ displayed l2.
Proof. apply omap_app. Qed.

Lemma displayed_prints (lines : list string) : displayed (EvPrint <$> lines) = [].
Proof. induction lines as [|x lines IH]; [done | apply IH]. Qed.

Lemma displayed_displays (ms : list Message) : displayed (EvDisplay <$> ms) = ms.
Proof. induction ms as [|m ms IH]; [done | cbn; f_equal; exact IH]. Qed.

Lemma displayed_sleep_step interval : displayed (sleep_step interval).1 = [].
Proof. unfold sleep_step. by destruct (sleep_ok interval). Qed.

Lemma displayed_handler error interval :
  displayed (handler error interval).1 = [].
Proof. unfold handler. by destruct (sleep_ok interval). Qed.

Lemma displayed_ending raised interval :
  displayed (ending raised interval).1 = [].
Proof.
  destruct raised; [apply displayed_handler | apply displayed_sleep_step].
Qed.


Lemma ending_dead raised interval :
  (interval < 0)%Z -> (ending raised interval).2 = false.
Proof.
  intros Hi. assert (sleep_ok interval = false) as Hok
    by (unfold sleep_ok; lia).
  destruct raised; cbn; unfold sleep_step; by rewrite Hok.
Qed.

(** Dictionaries are displayed one after the other. *)
Lemma display_all_app (w : list Message) rest :
  display_all ((Dict <$> w) ++ rest)
  = (w ++ (display_all rest).1, (display_all rest).2).
Proof.
  induction w as [|m w IH]; cbn [fmap list_fmap app display_all].
  - by destruct (display_all rest).
  - change (list_fmap _ _ Dict w) with (Dict <$> w). by rewrite IH.
Qed.

Lemma display_all_dicts (w : list Message) :
  display_all (Dict <$> w) = (w, None).
Proof.
  rewrite <- (app_nil_r (Dict <$> w)), display_all_app. cbn.
  by rewrite app_nil_r.
Qed.

(** What [display_all] shows is the longest run of dictionaries at the
    head of the list. *)
Lemma display_all_prefix items :
  (Dict <$> (display_all items).1) `prefix_of` items.
Proof.
  induction items as [|[m|error] items IH]; cbn [display_all].
  - done.
  - destruct (display_all items) as [shown raised]. cbn in *.
    by apply prefix_cons.
  - apply prefix_nil.
Qed.

(** A list of dictionaries that are all displayed: lines 317-322 select
    the part past the cursor and move the cursor to the end. *)
Lemma new_messages_listing last (w : list Message) :
  new_messages last (Items (Dict <$> w))
  = (if decide (last < length w) then drop last w else [],
     if decide (last < length w) then length w else last,
     None).
Proof.
  unfold new_messages. rewrite length_fmap.
  case_decide; [|done].
  by rewrite <- fmap_drop, display_all_dicts.
Qed.

(** One iteration delivers exactly what [new_messages] selects. *)
Lemma iteration_spec room interval last r :
  let nm := new_messages last (get_messages r).1 in
  iteration room interval last r =
    (EvFetch room 10 :: (EvPrint <$> (get_messages r).2)
       ++ (EvDisplay <$> nm.1.1)
       ++ (ending nm.2 interval).1,
     nm.1.2,
     (ending nm.2 interval).2).
Proof.
  unfold iteration. destruct (get_messages r) as [ms out]. cbn [fst snd].
  destruct (new_messages last ms) as [[new last'] raised]. cbn [fst snd].
  by destruct (ending raised interval) as [closing alive].
Qed.

Lemma displayed_iteration room interval last r :
  displayed (iteration room interval last r).1.1 =
    (new_messages last (get_messages r).1).1.1.
Proof.
  rewrite iteration_spec. cbn.
  rewrite !displayed_app, displayed_prints, displayed_displays,
    displayed_ending.
  by rewrite app_nil_r.
Qed.

Lemma new_messages_cursor last ms : last <= (new_messages last ms).1.2.
Proof.
  unfold new_messages. destruct ms as [items|error|size error].
  - case_decide; cbn; [|lia].
    destruct (display_all (drop last items)) as [shown [error|]]; cbn; lia.
  - cbn; lia.
  - case_decide; cbn; lia.
Qed.

Lemma loop_cons room interval last r rs :
  loop room interval last (r :: rs) =
    let it := iteration room interval last r in
    if it.2 then
      let o := loop room interval it.1.2 rs in
      {| events := it.1.1 ++ events o; cursor := cursor o; status := status o |}
    else {| events := it.1.1; cursor := it.1.2; status := Died |}.
Proof. cbn [loop]. by destruct (iteration room interval last r) as [[evs l'] []]. Qed.

(** Running on [rs1 ++ rs2] is running on [rs1] and then, unless the
    thread died, on [rs2] from the cursor reached. *)
Lemma loop_app room interval rs1 : forall last rs2,
  loop room interval last (rs1 ++ rs2) =
    let o1 := loop room interval last rs1 in
    match status o1 with
    | FlagCleared =>
        let o2 := loop room interval (cursor o1) rs2 in
        {| events := events o1 ++ events o2; cursor := cursor o2;
           status := status o2 |}
    | Died => o1
    end.
Proof.
  induction rs1 as [|r rs1 IH]; intros last rs2.
  - cbn. by destruct (loop room interval last rs2).
  - rewrite <- app_comm_cons, !loop_cons. cbn zeta.
    destruct (iteration room interval last r) as [[evs l'] alive]; cbn.
    destruct alive; cbn; [|done].
    rewrite IH. cbn zeta.
    destruct (status (loop room interval l' rs1)) eqn:Hst; cbn;
      [by rewrite app_assoc | by rewrite Hst].
Qed.

Lemma loop_cursor_ge room interval rs : forall last,
  last <= cursor (loop room interval last rs).
Proof.
  induction rs as [|r rs IH]; intros last; [done|].
  rewrite loop_cons, iteration_spec. cbn.
  pose proof (new_messages_cursor last (get_messages r).1) as Hle.
  destruct (ending _ interval).2; cbn; [|done].
  etrans; [exact Hle | apply IH].
Qed.


(** C4. The value of [last_message_count] never decreases: after any
    prefix [rs1] of the cycles of a loop it is at least its initial value,
    and after any further cycles [rs2] (successful, shorter, empty or
    failed fetches alike) it is at least what it was after [rs1]. *)
Theorem cursor_never_decreases room interval last rs1 rs2 :
  last <= cursor (loop room interval last rs1)
  /\ cursor (loop room interval last rs1)
       <= cursor (loop room interval last (rs1 ++ rs2)).
Proof.
  split; [apply loop_cursor_ge|].
  rewrite loop_app. cbn zeta.
  destruct (status (loop room interval last rs1)); cbn; [|done].
  apply loop_cursor_ge.
Qed.

(** One more cycle after a run that ended at the loop head. *)
Lemma loop_snoc room interval rs evs0 last r :
  loop room interval 0 rs
    = {| events := evs0; cursor := last; status := FlagCleared |} ->
  loop room interval 0 (rs ++ [r])
    = {| events := evs0 ++ (iteration room interval last r).1.1;
         cursor := (iteration room interval last r).1.2;
         status := if (iteration room interval last r).2
                   then FlagCleared else Died |}.
Proof.
  intros H. rewrite loop_app, H. cbn zeta. cbn [status cursor events].
  rewrite loop_cons. cbn zeta.
  destruct (iteration room interval last r) as [[evs l'] []]; cbn;
    by rewrite ?app_nil_r.
Qed.




(** *** Delivery against the room's stream of messages *)

Section Stream.
Variable stream : list Message.

Lemma drop_sublist_le (l : list Message) i j :
  i <= j -> drop j l `sublist_of` drop i l.
Proof.
  intros Hij. replace j with (i + (j - i)) by lia.
  rewrite <- drop_drop. apply sublist_drop.
Qed.

(** A window longer than the cursor: its new suffix, followed by what the
    stream holds after the window, is the stream from the position of
    the first new message. *)
Lemma window_split a (w : list Message) last :
  w = take (length w) (drop a stream) ->
  last < length w ->
  drop last w ++ drop (a + length w) stream = drop (a + last) stream.
Proof.
  intros Hw Hlt. rewrite <- !drop_drop.
  rewrite Hw at 1.
  apply drop_take_drop. lia.
Qed.

Lemma displayed_loop_cons room interval last r rs :
  exists rest,
    displayed (events (loop room interval last (r :: rs)))
      = (new_messages last (get_messages r).1).1.1 ++ rest
    /\ (rest = [] \/
        rest = displayed (events (loop room interval
                   (new_messages last (get_messages r).1).1.2 rs))).
Proof.
  rewrite loop_cons. cbn zeta.
  pose proof (displayed_iteration room interval last r) as Hd.
  rewrite iteration_spec in *. cbn [fst snd] in *.
  destruct (ending _ interval).2; cbn [events].
  - rewrite displayed_app, Hd. eauto.
  - rewrite Hd. exists []. rewrite app_nil_r. eauto.
Qed.

(** Everything a loop delivers lies, in order, in the part of the stream
    that starts [last] positions after the earliest window start. *)
Lemma displayed_sublist room interval offs : forall rs last lo,
  Forall2 (window_of stream) offs rs ->
  StronglySorted le offs ->
  Forall (le lo) offs ->
  displayed (events (loop room interval last rs))
    `sublist_of` drop (lo + last) stream.
Proof.
  induction offs as [|a offs IH]; intros rs last lo Hw Hs Hlo.
  - apply Forall2_nil_inv_l in Hw as ->. apply sublist_nil_l.
  - apply Forall2_cons_inv_l in Hw as (r & rs' & Hr & Hrs & ->).
    apply StronglySorted_inv in Hs as [Hs Ha].
    apply Forall_cons in Hlo as [Hlo _].
    destruct Hr as (w & Hget & Hw).
    destruct (displayed_loop_cons room interval last r rs')
      as (rest & -> & Hrest).
    rewrite Hget, new_messages_listing in *. cbn [fst snd] in *.
    assert (rest `sublist_of`
              drop (a + (if decide (last < length w) then length w
                         else last)) stream) as Hsub.
    { destruct Hrest as [-> | ->]; [apply sublist_nil_l|].
      by apply IH. }
    trans (drop (a + last) stream); [|apply drop_sublist_le; lia].
    revert Hsub. case_decide as Hlt; cbn; [|done].
    intros Hsub. rewrite <- (window_split a w last Hw Hlt).
    by apply sublist_app.
Qed.

End Stream.

(** C1, as stated, fails: a message is delivered twice when a later
    window holds it at a position past the cursor, as with a server that
    answers newest first. *)
Lemma duplicate_delivery :
  displayed (events (poll_messages "general" 2000
                       [listing [Samples.m1];
                        listing [Samples.m2; Samples.m1]]))
    = [Samples.m1; Samples.m1]
  /\ ~ NoDup (displayed (events (poll_messages "general" 2000
                       [listing [Samples.m1];
                        listing [Samples.m2; Samples.m1]]))).
Proof.
  assert (displayed (events (poll_messages "general" 2000
                       [listing [Samples.m1];
                        listing [Samples.m2; Samples.m1]]))
          = [Samples.m1; Samples.m1]) as ->.
  { vm_compute. reflexivity. }
  split; [done|]. rewrite NoDup_cons. intros [Hn _]. apply Hn. by left.
Qed.

(** C1 (amended). When every fetched window is a list of dictionaries
    that [_display_message] displays without raising, is a run of the
    room's stream of distinct messages, and no window starts before an
    earlier one (the window may shrink by trimming at the head and grow
    again at the tail; failed fetches count as empty), each message is
    delivered at most once. *)
Theorem no_duplicate_delivery stream room interval offs rs :
  NoDup stream ->
  sliding stream offs rs ->
  NoDup (displayed (events (poll_messages room interval rs))).
Proof.
  intros Hnd [Hw Hs].
  apply (sublist_NoDup _ stream); [exact Hnd|].
  trans (drop (0 + 0) stream); [|apply sublist_drop].
  apply displayed_sublist with (offs := offs); [done..|].
  apply Forall_forall. lia.
Qed.

(** The sample messages are pairwise distinct. *)
Lemma samples_distinct : NoDup Samples.stream.
Proof. apply (bool_decide_unpack _). by vm_compute. Qed.

(** C6, as stated, fails: both windows are runs of the stream, the second
    starts before the first, and the loop delivers [m2] after [m3]
    although [m2] arrived first. *)
Lemma delivery_out_of_order :
  Forall2 (window_of Samples.stream) [2; 0]
    [listing [Samples.m3]; listing [Samples.m1; Samples.m2]]
  /\ displayed (events (poll_messages "general" 2000
                          [listing [Samples.m3];
                           listing [Samples.m1; Samples.m2]]))
     = [Samples.m3; Samples.m2]
  /\ ~ displayed (events (poll_messages "general" 2000
                            [listing [Samples.m3];
                             listing [Samples.m1; Samples.m2]]))
        `sublist_of` Samples.stream.
Proof.
  assert (displayed (events (poll_messages "general" 2000
                               [listing [Samples.m3];
                                listing [Samples.m1; Samples.m2]]))
          = [Samples.m3; Samples.m2]) as ->.
  { vm_compute. reflexivity. }
  split; [|split; [done|]].
  - repeat (constructor;
            [eexists; split; [reflexivity | vm_compute; reflexivity]|]).
    constructor.
  - intros Hsub.
    apply (fmap_sublist (fun m : Message => m !! "id")) in Hsub.
    vm_compute in Hsub.
    repeat match goal with
           | H : sublist _ _ |- _ => inversion H; subst; clear H
           end.
Qed.

(** C6 (amended). When every fetched window is a list of dictionaries
    that [_display_message] displays without raising, is a run of the
    room's arrival-ordered stream, and no window starts before an earlier
    one, the messages delivered over the loop's lifetime form a
    subsequence of the stream: no delivery precedes, in arrival order, an
    earlier one.  Within a cycle the loop delivers exactly the part of
    such a window past the cursor, in fetched order; whatever the window
    holds, what a cycle delivers is an initial part of the part of the
    window past the cursor. *)
Theorem delivery_in_arrival_order stream room interval offs rs :
  sliding stream offs rs ->
  displayed (events (poll_messages room interval rs)) `sublist_of` stream
  /\ (forall last w,
        displayed (iteration room interval last (listing w)).1.1
        = if decide (last < length w) then drop last w else [])
  /\ (forall last r items,
        (get_messages r).1 = Items items ->
        (Dict <$> displayed (iteration room interval last r).1.1)
          `prefix_of` drop last items).
Proof.
  intros [Hw Hs]. split; [|split].
  - trans (drop (0 + 0) stream); [|apply sublist_drop].
    apply displayed_sublist with (offs := offs); [done..|].
    apply Forall_forall. lia.
  - intros last w. rewrite displayed_iteration.
    change (get_messages (listing w)).1 with (Items (Dict <$> w)).
    by rewrite new_messages_listing.
  - intros last r items Hget. rewrite displayed_iteration, Hget.
    unfold new_messages. case_decide; [|apply prefix_nil].
    pose proof (display_all_prefix (drop last items)) as Hp.
    by destruct (display_all (drop last items)) as [shown [error|]].
Qed.

Lemma samples_sliding :
  NoDup Samples.stream /\ sliding Samples.stream Samples.offsets Samples.fetched.
Proof.
  split; [|split].
  - apply samples_distinct.
  - unfold Samples.offsets, Samples.fetched.
    repeat (constructor;
            [first [ by exists []
                   | eexists; split; [reflexivity | vm_compute; reflexivity] ]|]).
    constructor.
  - unfold Samples.offsets. repeat constructor.
Qed.

Lemma no_duplicate_delivery_witness :
  NoDup (displayed (events (poll_messages "general" 2000 Samples.fetched))).
Proof.
  apply (no_duplicate_delivery Samples.stream "general" 2000
           Samples.offsets Samples.fetched); apply samples_sliding.
Defined.

Lemma delivery_in_arrival_order_witness :
  displayed (events (poll_messages "general" 2000 Samples.fetched))
    `sublist_of` Samples.stream.
Proof.
  apply (delivery_in_arrival_order Samples.stream "general" 2000
           Samples.offsets Samples.fetched). apply samples_sliding.
Defined.

Example samples_displayed :
  displayed (events (poll_messages "general" 2000 Samples.fetched))
  = [Samples.m1; Samples.m2; Samples.m3; Samples.m6].
Proof. vm_compute. reflexivity. Qed.

End PollProps.


(** * Properties of the session and its threads *)

Module SessionProps.
Import Session.

(** ** Small facts about threads and logs *)

(** Membership in an explicit list of entries, case by case. *)
Ltac entry_cases H :=
  repeat (apply elem_of_cons in H as [H|H]; [try discriminate H|]);
  try (by apply elem_of_nil in H).

Lemma poller_run_alive flag now th th' evs :
  poller_run flag now th = Some (th', evs) -> alive th = true.
Proof. unfold poller_run, alive. by destruct (at_pc th). Qed.

Lemma poller_respond_alive now r th th' evs :
  poller_respond now r th = Some (th', evs) -> alive th = true.
Proof. unfold poller_respond, alive. by destruct (at_pc th). Qed.

Lemma is_alive_lookup ths t th :
  ths !! t = Some th -> is_alive ths t = alive th.
Proof. unfold is_alive. by intros ->. Qed.

Lemma is_alive_lt ths t : is_alive ths t = true -> t < length ths.
Proof.
  unfold is_alive. destruct (ths !! t) eqn:E; [|done].
  intros _. by eapply lookup_lt_Some.
Qed.

Lemma is_alive_insert_ne ths t t0 th :
  t0 <> t -> is_alive (<[t := th]> ths) t0 = is_alive ths t0.
Proof. intros. unfold is_alive. by rewrite list_lookup_insert_ne. Qed.

Lemma is_alive_insert_eq ths t th :
  t < length ths -> is_alive (<[t := th]> ths) t = alive th.
Proof. intros. unfold is_alive. by rewrite list_lookup_insert_eq. Qed.

Lemma is_alive_app_new ths th t :
  is_alive (ths ++ [th]) t = true ->
  is_alive ths t = true \/ t = length ths.
Proof.
  intros H. destruct (decide (t < length ths)) as [Hlt|Hge].
  - left. unfold is_alive in *. by rewrite lookup_app_l in H.
  - right. apply is_alive_lt in H. rewrite length_app in H. cbn in H. lia.
Qed.

Lemma joins_completed_app l1 l2 :
  joins_completed (l1 ++ l2) -> joins_completed l1 /\ joins_completed l2.
Proof.
  unfold joins_completed. intros H.
  split; intros t Hin; apply (H t), elem_of_app; auto.
Qed.

(** Appending entries among which a polling thread acts only if it is at
    least as recent as every thread created so far. *)
Lemma in_creation_order_app l news :
  in_creation_order l ->
  in_creation_order news ->
  (forall t' t e, Spawned t' ∈ l -> ByPoller t e ∈ news -> t' <= t) ->
  in_creation_order (l ++ news).
Proof.
  intros Hl Hn Hx i j t' t e Hi Hj Hij.
  destruct (decide (j < length l)) as [Hjl|Hjl].
  - rewrite lookup_app_l in Hj by done.
    rewrite lookup_app_l in Hi by lia. eauto.
  - rewrite lookup_app_r in Hj by lia.
    destruct (decide (i < length l)) as [Hil|Hil].
    + rewrite lookup_app_l in Hi by done.
      eapply Hx; eapply list_elem_of_lookup_2; eauto.
    + rewrite lookup_app_r in Hi by lia.
      eapply (Hn (i - length l) (j - length l)); eauto. lia.
Qed.

Lemma in_creation_order_no_spawn news :
  (forall t, Spawned t ∉ news) -> in_creation_order news.
Proof.
  intros H i j t' t e Hi. exfalso.
  eapply H, list_elem_of_lookup_2, Hi.
Qed.

Lemma in_creation_order_no_poller news :
  (forall t e, ByPoller t e ∉ news) -> in_creation_order news.
Proof.
  intros H i j t' t e _ Hj. exfalso.
  eapply H, list_elem_of_lookup_2, Hj.
Qed.

Lemma poller_entries t t0 evs th e :
  ByPoller t0 e ∈ (ByPoller t <$> evs) ++ exit_entries t th -> t0 = t.
Proof.
  rewrite elem_of_app, list_elem_of_fmap. intros [(x & [= -> _] & _)|H]; [done|].
  unfold exit_entries in H. destruct (alive th); entry_cases H.
Qed.

Lemma poller_entries_spawn t evs th t' :
  Spawned t' ∉ (ByPoller t <$> evs) ++ exit_entries t th.
Proof.
  rewrite elem_of_app, list_elem_of_fmap. intros [(x & [=] & _)|H].
  unfold exit_entries in H. destruct (alive th); entry_cases H.
Qed.

Lemma poller_entries_joined t evs th t' b :
  Joined t' b ∉ (ByPoller t <$> evs) ++ exit_entries t th.
Proof.
  rewrite elem_of_app, list_elem_of_fmap. intros [(x & [=] & _)|H].
  unfold exit_entries in H. destruct (alive th); entry_cases H.
Qed.

(** ** The invariant *)

Lemma init_inv url : inv (init url).
Proof.
  split; cbn; try done.
  intros t Hin. by apply elem_of_nil in Hin.
Qed.

Lemma last_app_entries (l news : list entry) x :
  last (l ++ news) = Some x -> news <> [] -> last news = Some x.
Proof.
  intros H Hne. destruct news as [|y news] using rev_ind; [done|].
  rewrite app_assoc, last_snoc in H. by rewrite last_snoc.
Qed.

Lemma last_poller_entries t evs th x :
  last ((ByPoller t <$> evs) ++ exit_entries t th) = Some x ->
  (exists e, x = ByPoller t e) \/ x = Finished t.
Proof.
  unfold exit_entries. destruct (alive th).
  - rewrite app_nil_r. intros H. left.
    apply last_Some_elem_of, list_elem_of_fmap in H as (e & -> & _). eauto.
  - rewrite last_snoc. intros [= <-]. by right.
Qed.

(** A polling thread moves. *)
Lemma thread_step_inv s t th th' evs :
  inv s ->
  threads s !! t = Some th ->
  alive th = true ->
  inv {| now := now s; cl := cl s; threads := <[t := th']> (threads s);
         main := main s;
         log := log s ++ (ByPoller t <$> evs) ++ exit_entries t th' |}.
Proof.
  intros I Ht Hal.
  pose proof (lookup_lt_Some _ _ _ Ht) as Hlt.
  set (news := (ByPoller t <$> evs) ++ exit_entries t th').
  assert (news = [] -> alive th' = true) as Hsilent.
  { unfold news, exit_entries. destruct (alive th'); [done|].
    intros H. by apply app_eq_nil in H as [_ ?]. }
  assert (forall x, last (log s ++ news) = Some x ->
            (forall c, x = Returned c -> last (log s) = Some x /\ news = []))
    as Hlast.
  { intros x Hx c ->. destruct news as [|y n'] eqn:En.
    - by rewrite app_nil_r in Hx.
    - apply last_app_entries in Hx; [|done]. rewrite <- En in Hx.
      apply last_poller_entries in Hx as [[e [=]]|[=]]. }
  split; cbn [now cl threads main log]; fold news.
  - intros t0 Hp. rewrite length_insert. by apply I.
  - intros t0 Hin. rewrite length_insert.
    apply elem_of_app in Hin as [Hin|Hin]; [by apply I|].
    by apply poller_entries_spawn in Hin.
  - apply I.
  - intros room ival Hx. destruct (Hlast _ Hx _ eq_refl) as [Hl Hn].
    destruct (inv_started _ I _ _ Hl) as (t0 & Hp & Ha).
    exists t0. split; [done|].
    destruct (decide (t0 = t)) as [->|Hne].
    + rewrite is_alive_insert_eq by done. auto.
    + by rewrite is_alive_insert_ne.
  - intros Hx. destruct (Hlast _ Hx _ eq_refl) as [Hl Hn]. by apply I.
  - intros Hj t0 Ha. apply joins_completed_app in Hj as [Hj _].
    destruct (decide (t0 = t)) as [->|Hne].
    + apply (inv_sole _ I Hj). by rewrite (is_alive_lookup _ _ _ Ht).
    + rewrite is_alive_insert_ne in Ha by done. by apply (inv_sole _ I Hj).
  - intros Hj. apply joins_completed_app in Hj as [Hj _].
    apply in_creation_order_app; [by apply I| |].
    + apply in_creation_order_no_spawn. intros t0.
      apply poller_entries_spawn.
    + intros t' t0 e Hsp Hin. apply poller_entries in Hin as ->.
      apply (inv_spawned _ I) in Hsp.
      assert (polling_thread (cl s) = Some t) as Hp.
      { apply (inv_sole _ I Hj). by rewrite (is_alive_lookup _ _ _ Ht). }
      apply (inv_latest _ I) in Hp. lia.
  - intros Hj Hm Hf t0. apply joins_completed_app in Hj as [Hj _].
    pose proof (inv_quiet _ I Hj Hm Hf t) as Hd.
    rewrite (is_alive_lookup _ _ _ Ht) in Hd. congruence.
Qed.

Lemma in_creation_order_app_main l news :
  in_creation_order l ->
  (forall t e, ByPoller t e ∉ news) ->
  in_creation_order (l ++ news).
Proof.
  intros Hl Hn. apply in_creation_order_app; [done| |].
  - by apply in_creation_order_no_poller.
  - intros t' t e _ Hin. by apply Hn in Hin.
Qed.

(** The tail of a call, run in a [ready] state, restores the invariant. *)
Lemma finish_inv k s : ready s -> inv (finish k s).
Proof.
  intros R. destruct k as [room ival| |]; cbn.
  - (* start_message_polling *)
    split; cbn [now cl threads main log polling_thread message_polling];
      rewrite ?length_app; cbn [length].
    + intros t [= <-]. lia.
    + intros t Hin. apply elem_of_app in Hin as [Hin|Hin].
      * apply (ready_spawned _ R) in Hin. lia.
      * entry_cases Hin. injection Hin as ->. lia.
    + done.
    + intros _ _ _. exists (length (threads s)). split; [done|].
      unfold is_alive. by rewrite lookup_app_r, Nat.sub_diag.
    + by rewrite last_app_cons.
    + intros Hj t Ha. apply joins_completed_app in Hj as [Hj _].
      apply is_alive_app_new in Ha as [Ha| ->]; [|done].
      by rewrite (ready_quiet _ R Hj) in Ha.
    + intros Hj. apply joins_completed_app in Hj as [Hj _].
      apply in_creation_order_app_main; [by apply R|].
      intros t e Hin. entry_cases Hin.
    + done.
  - (* stop_message_polling *)
    split; cbn [now cl threads main log].
    + apply R.
    + intros t Hin. apply elem_of_app in Hin as [Hin|Hin]; [by apply R|].
      entry_cases Hin.
    + done.
    + intros room ival. by rewrite last_snoc.
    + split; [done | apply R].
    + intros Hj t Ha. apply joins_completed_app in Hj as [Hj _].
      by rewrite (ready_quiet _ R Hj) in Ha.
    + intros Hj. apply joins_completed_app in Hj as [Hj _].
      apply in_creation_order_app_main; [by apply R|].
      intros t e Hin. entry_cases Hin.
    + intros Hj _ _. apply joins_completed_app in Hj as [Hj _].
      by apply R.
  - (* logout *)
    split; cbn [now cl threads main log polling_thread message_polling].
    + apply R.
    + intros t Hin. apply elem_of_app in Hin as [Hin|Hin]; [by apply R|].
      entry_cases Hin.
    + done.
    + intros room ival. by rewrite last_app_cons.
    + by rewrite last_app_cons.
    + intros Hj t Ha. apply joins_completed_app in Hj as [Hj _].
      by rewrite (ready_quiet _ R Hj) in Ha.
    + intros Hj. apply joins_completed_app in Hj as [Hj _].
      apply in_creation_order_app_main; [by apply R|].
      intros t e Hin. entry_cases Hin.
    + intros Hj _ _. apply joins_completed_app in Hj as [Hj _].
      by apply R.
Qed.

(** The main thread enters [stop_message_polling] on behalf of [k]. *)
Lemma enter_stop_inv k s :
  inv s -> main s = Idle ->
  inv (enter_stop k {| now := now s; cl := cl s; threads := threads s;
                       main := main s; log := log s ++ [Called k] |}).
Proof.
  intros I Hm. unfold enter_stop, stop_enter.
  cbn [now cl threads main log].
  destruct (message_polling (cl s)) eqn:Hf.
  - destruct (polling_thread (cl s)) as [t|] eqn:Hp.
    + (* blocked in join *)
      split; cbn [now cl threads main log set_message_polling
                  polling_thread message_polling].
      * intros t0 Ht0. apply I. congruence.
      * intros t0 Hin. apply elem_of_app in Hin as [Hin|Hin]; [by apply I|].
        entry_cases Hin.
      * intros t0 d k0 [= <- _ _]. done.
      * intros room ival. by rewrite last_snoc.
      * by rewrite last_snoc.
      * intros Hj t0 Ha. apply joins_completed_app in Hj as [Hj _].
        etrans; [|by apply (inv_sole _ I Hj)]. done.
      * intros Hj. apply joins_completed_app in Hj as [Hj _].
        apply in_creation_order_app_main; [by apply I|].
        intros t0 e Hin. entry_cases Hin.
      * done.
    + (* no thread object *)
      apply finish_inv.
      split; cbn [now cl threads main log set_message_polling
                  polling_thread message_polling].
      * intros t0 Ht0. apply I. congruence.
      * intros t0 Hin. rewrite <- app_assoc in Hin.
        apply elem_of_app in Hin as [Hin|Hin]; [by apply I|].
        entry_cases Hin.
      * done.
      * intros Hj. rewrite <- app_assoc in Hj.
        apply joins_completed_app in Hj as [Hj _].
        rewrite <- app_assoc.
        apply in_creation_order_app_main; [by apply I|].
        intros t0 e Hin. entry_cases Hin.
      * intros Hj t0. rewrite <- app_assoc in Hj.
        apply joins_completed_app in Hj as [Hj _].
        destruct (is_alive (threads s) t0) eqn:Ha; [|done].
        apply (inv_sole _ I Hj) in Ha. congruence.
  - (* the flag was already false *)
    apply finish_inv.
    split; cbn [now cl threads main log].
    + apply I.
    + intros t0 Hin. apply elem_of_app in Hin as [Hin|Hin]; [by apply I|].
      entry_cases Hin.
    + done.
    + intros Hj. apply joins_completed_app in Hj as [Hj _].
      apply in_creation_order_app_main; [by apply I|].
      intros t0 e Hin. entry_cases Hin.
    + intros Hj t0. apply joins_completed_app in Hj as [Hj _].
      by apply (inv_quiet _ I Hj).
Qed.

Lemma invoke_inv k s s' : inv s -> invoke k s = Some s' -> inv s'.
Proof.
  intros I. unfold invoke. destruct (main s) eqn:Hm; [|done].
  assert (inv (enter_stop k {| now := now s; cl := cl s;
                               threads := threads s; main := Idle;
                               log := log s ++ [Called k] |})) as He.
  { rewrite <- Hm. by apply enter_stop_inv. }
  destruct k as [room ival| |]; cbn [cl]; try (by intros [= <-]).
  destruct (message_polling (cl s)) eqn:Hf; intros [= <-]; [done|].
  unfold enter_stop, stop_enter in He. cbn [cl] in He. by rewrite Hf in He.
Qed.

Lemma resume_inv s s' : inv s -> resume s = Some s' -> inv s'.
Proof.
  intros I. unfold resume. destruct (main s) as [|t d k] eqn:Hm; [done|].
  destruct (inv_join _ I _ _ _ Hm) as [Hp Hf].
  destruct (negb (is_alive (threads s) t) || bool_decide (d <= now s)%Z);
    [|done].
  intros [= <-]. apply finish_inv.
  split; cbn [now cl threads main log].
  - apply I.
  - intros t0 Hin. apply elem_of_app in Hin as [Hin|Hin]; [by apply I|].
    entry_cases Hin.
  - done.
  - intros Hj. apply joins_completed_app in Hj as [Hj _].
    apply in_creation_order_app_main; [by apply I|].
    intros t0 e Hin. entry_cases Hin.
  - intros Hj t0. pose proof Hj as Hj'.
    apply joins_completed_app in Hj as [Hj _].
    destruct (is_alive (threads s) t0) eqn:Ha; [|done].
    pose proof (inv_sole _ I Hj _ Ha) as Hp0.
    assert (t0 = t) as -> by congruence.
    exfalso. apply (Hj' t). apply elem_of_app. right.
    rewrite Ha. cbn. by left.
Qed.

Lemma step_inv s a s' : inv s -> step s a = Some s' -> inv s'.
Proof.
  intros I. destruct a as [d|t|t r|k|]; cbn.
  - case_decide; [|done]. intros [= <-].
    by destruct I; split.
  - destruct (threads s !! t) as [th|] eqn:Ht; [|done]. cbn.
    destruct (poller_run _ _ th) as [[th' evs]|] eqn:Hr; [|done].
    intros [= <-]. apply poller_run_alive in Hr.
    by apply thread_step_inv with (th := th).
  - destruct (threads s !! t) as [th|] eqn:Ht; [|done]. cbn.
    destruct (poller_respond _ _ th) as [[th' evs]|] eqn:Hr; [|done].
    intros [= <-]. apply poller_respond_alive in Hr.
    by apply thread_step_inv with (th := th).
  - by apply invoke_inv.
  - by apply resume_inv.
Qed.

Lemma run_inv acts : forall s s', inv s -> run s acts = Some s' -> inv s'.
Proof.
  induction acts as [|a acts IH]; intros s s' I; cbn.
  - by intros [= <-].
  - destruct (step s a) as [s1|] eqn:Hs; [|done]. cbn.
    apply IH. by eapply step_inv.
Qed.

Lemma reachable_inv url acts s : run (init url) acts = Some s -> inv s.
Proof. apply run_inv, init_inv. Qed.

(** ** Threads that have ended stay silent *)

Lemma main_frame_trans s1 s2 s3 :
  main_frame s1 s2 -> main_frame s2 s3 -> main_frame s1 s3.
Proof.
  intros [(x1 & Hx1 & Hf1) (n1 & Hn1 & Hp1)] [(x2 & Hx2 & Hf2) (n2 & Hn2 & Hp2)].
  split.
  - exists (x1 ++ x2). split; [by rewrite Hx2, Hx1, app_assoc|].
    by apply Forall_app.
  - exists (n1 ++ n2). split; [by rewrite Hn2, Hn1, app_assoc|].
    intros t e Hin. apply elem_of_app in Hin as [Hin|Hin];
      [by apply Hp1 in Hin | by apply Hp2 in Hin].
Qed.

Lemma finish_frame k s : main_frame s (finish k s).
Proof.
  destruct k as [room ival| |]; cbn; (split; [|eexists; split; [done|]]).
  - eexists. split; [done|]. by repeat constructor.
  - intros t e Hin. entry_cases Hin.
  - exists []. by rewrite app_nil_r.
  - intros t e Hin. entry_cases Hin.
  - exists []. by rewrite app_nil_r.
  - intros t e Hin. entry_cases Hin.
Qed.

Lemma logged_frame s c m news :
  (forall t e, ByPoller t e ∉ news) ->
  main_frame s {| now := now s; cl := c; threads := threads s; main := m;
                  log := log s ++ news |}.
Proof.
  intros Hn. split; cbn.
  - exists []. by rewrite app_nil_r.
  - eauto.
Qed.

Lemma enter_stop_frame k s : main_frame s (enter_stop k s).
Proof.
  unfold enter_stop. destruct (stop_enter (cl s)) as [[c [t|]]|].
  - replace (log s) with (log s ++ []) at 1 by apply app_nil_r.
    apply logged_frame. intros t0 e Hin. by apply elem_of_nil in Hin.
  - eapply main_frame_trans; [|apply finish_frame].
    apply logged_frame. intros t e Hin. entry_cases Hin.
  - apply finish_frame.
Qed.

Lemma main_step_frame s a s' :
  step s a = Some s' ->
  match a with Invoke _ | Resume => main_frame s s' | _ => True end.
Proof.
  destruct a as [d|t|t r|k|]; try done; cbn [step].
  - unfold invoke. destruct (main s); [|done].
    set (s0 := {| now := now s; cl := cl s; threads := threads s;
                  main := Idle; log := log s ++ [Called k] |}).
    assert (main_frame s s0) as H0.
    { apply logged_frame. intros t e Hin. entry_cases Hin. }
    assert (main_frame s (enter_stop k s0)) as H1.
    { eapply main_frame_trans; [exact H0 | apply enter_stop_frame]. }
    assert (main_frame s (finish k s0)) as H2.
    { eapply main_frame_trans; [exact H0 | apply finish_frame]. }
    destruct k as [room ival| |]; [destruct (message_polling (cl s0))|..];
      intros H; apply (inj Some) in H; by subst s'.
  - unfold resume. destruct (main s) as [|t d k]; [done|].
    destruct (_ || _); [|done]. intros H; apply (inj Some) in H; subst s'.
    eapply main_frame_trans; [|apply finish_frame].
    apply logged_frame. intros t0 e Hin. entry_cases Hin.
Qed.





(** ** Stopping *)




(** ** Restarting *)




(** ** Starting *)

(** C7, as stated, fails: with interval 0 (and with a negative one) the
    call returns normally and a polling thread exists that has sent its
    first request. *)
Lemma nonpositive_interval_starts_loop :
  (fun s => (message_polling (cl s), is_alive (threads s) 0, log s))
    <$> run (init Samples.url) [Invoke (CallStart "general" 0); Run 0]
  = Some (true, true,
          [ Called (CallStart "general" 0); Spawned 0;
            MainPrint "Started message polling for room general";
            Returned (CallStart "general" 0);
            ByPoller 0 (EvFetch "general" 10) ])
  /\ (fun s => (message_polling (cl s), is_alive (threads s) 0, log s))
    <$> run (init Samples.url) [Invoke (CallStart "general" (-1000)); Run 0]
  = Some (true, true,
          [ Called (CallStart "general" (-1000)); Spawned 0;
            MainPrint "Started message polling for room general";
            Returned (CallStart "general" (-1000));
            ByPoller 0 (EvFetch "general" 10) ]).
Proof. split; vm_compute; reflexivity. Qed.

(** C7 (amended). [start_message_polling] does not look at the interval:
    for every interval, non-positive ones included, and in every state of
    the client, the call is accepted; when it returns, at once or after
    the join of the previous polling thread, the flag is set and a polling
    thread with that interval has been created and is the client's
    [polling_thread]; and the loop of that thread begins with its fetch
    and hands the elements of its first window to [_display_message] in
    order, up to the first one on which that call raises: all of them
    when none raises. *)
Theorem start_accepts_any_interval room ival :
  (forall s, main s = Idle ->
     exists s', step s (Invoke (CallStart room ival)) = Some s'
       /\ (main s' = Idle
           \/ exists t d, main s' = InJoin t d (CallStart room ival)))
  /\ (forall s s',
        step s (Invoke (CallStart room ival)) = Some s'
        \/ ((exists t d, main s = InJoin t d (CallStart room ival))
            /\ step s Resume = Some s') ->
        main s' = Idle ->
        message_polling (cl s') = true
        /\ polling_thread (cl s') = Some (length (threads s))
        /\ threads s'
           = threads s ++ [{| room_id := room; interval := ival;
                              last_message_count := 0; at_pc := AtWhile |}]
        /\ last (log s') = Some (Returned (CallStart room ival)))
  /\ (forall r rs, exists rest,
        Poll.events (Poll.poll_messages room ival (r :: rs))
        = EvFetch room 10 :: (EvPrint <$> (get_messages r).2)
            ++ (EvDisplay <$> (Poll.new_messages 0 (get_messages r).1).1.1)
            ++ rest)
  /\ (forall items,
        (Poll.new_messages 0 (Items items)).1.1 = (Poll.display_all items).1)
  /\ (forall w rest error,
        Poll.display_all (Dict <$> w) = (w, None)
        /\ Poll.display_all ((Dict <$> w) ++ Raising error :: rest)
           = (w, Some error)).
Proof.
  split; [|split; [|split; [|split]]].
  - intros s Hm. cbn [step]. unfold invoke. rewrite Hm. cbn [cl].
    destruct (message_polling (cl s)); [|eexists; split; [done|by left]].
    eexists. split; [done|]. unfold enter_stop.
    destruct (stop_enter _) as [[c [t|]]|]; cbn [main finish];
      [right; eauto | left.. ].
    + by destruct (start_tail _ _ _).
    + by destruct (start_tail _ _ _).
  - intros s s' Hstep Hidle.
    assert (exists s1, s' = finish (CallStart room ival) s1
                       /\ threads s1 = threads s) as (s1 & -> & Hth).
    { destruct Hstep as [Hstep | [(t & d & Hm) Hstep]]; cbn [step] in Hstep.
      - unfold invoke in Hstep. destruct (main s); [|done]. cbn [cl] in Hstep.
        destruct (message_polling (cl s));
          [|apply (inj Some) in Hstep as <-; eauto].
        apply (inj Some) in Hstep as <-. revert Hidle. unfold enter_stop.
        destruct (stop_enter _) as [[c [t|]]|]; [done|eauto..].
      - unfold resume in Hstep. rewrite Hm in Hstep.
        destruct (_ || _); [|done].
        apply (inj Some) in Hstep as <-. eauto. }
    cbn [finish]. rewrite Hth.
    destruct (start_tail room (length (threads s)) (cl s1)) as [c out] eqn:Hst.
    cbn [cl threads log].
    unfold start_tail in Hst. apply (inj2 pair) in Hst as [<- <-].
    cbn [message_polling polling_thread].
    repeat split. rewrite !app_assoc. apply last_snoc.
  - intros r rs. unfold Poll.poll_messages.
    rewrite PollProps.loop_cons, PollProps.iteration_spec. cbn zeta.
    cbn [fst snd]. destruct (Poll.ending _ ival).2; cbn [Poll.events].
    + eexists. rewrite <- !app_comm_cons, <- !app_assoc. reflexivity.
    + eexists. reflexivity.
  - intros items. unfold Poll.new_messages.
    case_decide as Hlt.
    + rewrite drop_0.
      by destruct (Poll.display_all items) as [shown [error|]].
    + by destruct items; [|cbn in Hlt; lia].
  - intros w rest error. split; [apply PollProps.display_all_dicts|].
    rewrite PollProps.display_all_app. cbn. by rewrite app_nil_r.
Qed.

Lemma start_accepts_any_interval_witness :
  exists s', step (init Samples.url) (Invoke (CallStart "general" (-1000)))
             = Some s'
    /\ message_polling (cl s') = true
    /\ threads s' = [{| room_id := "general"; interval := -1000;
                        last_message_count := 0; at_pc := AtWhile |}].
Proof.
  eexists. split; [reflexivity|].
  destruct (start_accepts_any_interval "general" (-1000))
    as (_ & Hret & _).
  destruct (Hret (init Samples.url) _ (or_introl eq_refl) eq_refl)
    as (Hflag & _ & Hth & _).
  split; [exact Hflag | exact Hth].
Defined.

(** C8. The loop fetches before it sleeps: the first event of a loop
    that enters its body is the fetch, and a thread at the loop head that
    reads the flag true sends its request in that very step, whatever
    the time and the interval. *)
Theorem first_fetch_is_immediate room ival r rs now :
  (exists rest,
     Poll.events (Poll.poll_messages room ival (r :: rs))
     = EvFetch room 10 :: rest)
  /\ poller_run true now {| room_id := room; interval := ival;
                            last_message_count := 0; at_pc := AtWhile |}
     = Some ({| room_id := room; interval := ival;
                last_message_count := 0; at_pc := InFetch |},
             [EvFetch room 10]).
Proof.
  split; [|reflexivity]. unfold Poll.poll_messages.
  rewrite PollProps.loop_cons, PollProps.iteration_spec. cbn zeta.
  cbn [fst snd]. destruct (Poll.ending _ ival).2; cbn [Poll.events];
    rewrite <- ?app_comm_cons; eauto.
Qed.

(** ** Logging out *)

Lemma contains_del key h : Headers.contains key (Headers.del key h) = false.
Proof.
  unfold Headers.contains, Headers.del. apply bool_decide_eq_false.
  rewrite lookup_delete_eq. by intros [x ?].
Qed.

Lemma logout_tail_headers c :
  Headers.contains "Authorization" (headers (logout_tail c).1) = false.
Proof.
  cbn. destruct (Headers.contains "Authorization" (headers c)) eqn:E;
    [apply contains_del | done].
Qed.

Lemma logout_tail_idem c : (logout_tail (logout_tail c).1).1 = (logout_tail c).1.
Proof.
  unfold logout_tail at 1. cbn [fst]. rewrite logout_tail_headers.
  reflexivity.
Qed.

Lemma logout_fst c :
  (logout c).1 = (logout_tail (stop_message_polling c).1).1.
Proof.
  unfold logout. destruct (stop_message_polling c) as [c1 out1].
  reflexivity.
Qed.

Lemma stop_message_polling_flag c :
  message_polling (stop_message_polling c).1 = false.
Proof.
  unfold stop_message_polling, stop_enter.
  destruct (message_polling c) eqn:Hf; cbn; done.
Qed.

Lemma stop_message_polling_idle c :
  message_polling c = false -> (stop_message_polling c).1 = c.
Proof. unfold stop_message_polling, stop_enter. by intros ->. Qed.

(** C10. Whatever the state of the client, after [logout] the token,
    the user information and the current room are [None], the session
    headers hold no Authorization entry (under any capitalisation), and
    a second [logout] changes nothing. *)
Theorem logout_clears_session (c : client) :
  let c' := (logout c).1 in
  token c' = None /\ user_info c' = None /\ current_room c' = None
  /\ Headers.contains "Authorization" (headers c') = false
  /\ (logout c').1 = c'.
Proof.
  cbn zeta. rewrite !logout_fst.
  repeat split; [apply logout_tail_headers|].
  rewrite stop_message_polling_idle; [apply logout_tail_idem|].
  apply stop_message_polling_flag.
Qed.

(** *** [logout] as the main thread runs it

    The call may block in [join] while polling threads go on; when it has
    returned, the client is the one [logout] computes. *)

Lemma thread_step_client s a s' :
  step s a = Some s' ->
  (forall k, a <> Invoke k) -> a <> Resume ->
  cl s' = cl s /\ main s' = main s.
Proof.
  intros Hs Hk Hr. destruct a as [d|t|t r|k|]; cbn in Hs.
  - case_decide; [|done]. by injection Hs as <-.
  - destruct (threads s !! t) as [th|]; [|done]. cbn in Hs.
    destruct (poller_run _ _ _) as [[th' evs]|]; [|done].
    by injection Hs as <-.
  - destruct (threads s !! t) as [th|]; [|done]. cbn in Hs.
    destruct (poller_respond _ _ _) as [[th' evs]|]; [|done].
    by injection Hs as <-.
  - by destruct (Hk k).
  - done.
Qed.

Lemma logout_invoked s s1 :
  step s (Invoke CallLogout) = Some s1 -> logging_out (cl s) s1.
Proof.
  cbn. unfold invoke. destruct (main s); [|done].
  intros H. apply (inj Some) in H. subst s1.
  unfold logging_out. rewrite logout_fst.
  unfold enter_stop, stop_message_polling, stop_enter. cbn [cl log].
  destruct (message_polling (cl s)); [|left; by cbn].
  destruct (polling_thread (cl s)) as [t|]; [right|left]; cbn; eauto.
Qed.

Lemma logging_out_step c s a s' :
  logging_out c s -> step s a = Some s' -> (forall k, a <> Invoke k) ->
  logging_out c s'.
Proof.
  intros Hl Hs Hk.
  assert (a = Resume \/ a <> Resume) as [->|Hr]
    by (destruct a; auto; by right).
  - cbn in Hs. unfold resume in Hs.
    destruct Hl as [[Hm _]|(t & d & Hm & Hc)]; rewrite Hm in Hs; [done|].
    destruct (_ || _); [|done]. apply (inj Some) in Hs. subst s'.
    left. rewrite logout_fst, <- Hc. by cbn.
  - destruct (thread_step_client _ _ _ Hs Hk Hr) as [Hc Hm].
    unfold logging_out. by rewrite Hc, Hm.
Qed.

Lemma logout_in_system s acts s' :
  run s (Invoke CallLogout :: acts) = Some s' ->
  Forall (fun a => forall k, a <> Invoke k) acts ->
  main s' = Idle ->
  cl s' = (logout (cl s)).1.
Proof.
  cbn [run]. destruct (step s (Invoke CallLogout)) as [s1|] eqn:Hs; [|done].
  cbn. apply logout_invoked in Hs. revert Hs. generalize (cl s) as c.
  intros c Hl Hr Hacts Hm.
  assert (logging_out c s') as [[_ ?]|(t & d & Hm' & _)];
    [|done|congruence].
  revert s1 Hl Hr. induction Hacts as [|a acts Ha _ IH]; intros s1 Hl; cbn.
  - by intros [= <-].
  - destruct (step s1 a) as [s2|] eqn:Hs; [|done]. cbn.
    apply IH. by eapply logging_out_step.
Qed.

(** ** Each thread follows [Poll.loop] *)

Lemma thread_events_app t l1 l2 :
  thread_events t (l1 ++ l2) = thread_events t l1 ++ thread_events t l2.
Proof. apply omap_app. Qed.

Lemma thread_events_own t evs th :
  thread_events t ((ByPoller t <$> evs) ++ exit_entries t th) = evs.
Proof.
  rewrite thread_events_app.
  assert (thread_events t (exit_entries t th) = []) as ->.
  { unfold exit_entries. by destruct (alive th). }
  rewrite app_nil_r. induction evs as [|e evs IH]; [done|].
  cbn. rewrite decide_True by done. f_equal. exact IH.
Qed.

Lemma thread_events_none t news :
  (forall e, ByPoller t e ∉ news) -> thread_events t news = [].
Proof.
  induction news as [|x news IH]; intros H; [done|].
  assert (thread_events t news = []) as IH'.
  { apply IH. intros e Hin. apply (H e). by right. }
  destruct x as [t' e| | | | | |]; try exact IH'.
  cbn. destruct (decide (t' = t)) as [->|]; [|exact IH'].
  destruct (H e). by left.
Qed.

Lemma delivered_by_events t l :
  delivered_by t l = Poll.displayed (thread_events t l).
Proof.
  induction l as [|x l IH]; [done|].
  destruct x as [t' e| | | | | |]; try exact IH.
  cbn. destruct e; destruct (decide (t' = t)); cbn; try exact IH.
  f_equal. exact IH.
Qed.

Lemma with_count_same th : with_count (last_message_count th) th = th.
Proof. by destruct th. Qed.

Lemma tracks_sleep now th evs0 rs r evs :
  Poll.loop (room_id th) (interval th) 0 rs
    = {| Poll.events := evs0; Poll.cursor := last_message_count th;
         Poll.status := FlagCleared |} ->
  forall n mid,
    (Poll.new_messages (last_message_count th) (get_messages r).1)
      = (mid, n, None) ->
    evs = evs0 ++ EvFetch (room_id th) 10
            :: (EvPrint <$> (get_messages r).2) ++ (EvDisplay <$> mid) ->
    tracks (go_sleep now (with_count n th)).1
           (evs ++ (go_sleep now (with_count n th)).2) (rs ++ [r]).
Proof.
  intros Hon n mid Hnew ->.
  pose proof (PollProps.loop_snoc _ _ _ _ _ r Hon) as Hsnoc.
  rewrite PollProps.iteration_spec in Hsnoc. cbn zeta in Hsnoc.
  rewrite Hnew in Hsnoc. cbn [fst snd Poll.ending] in Hsnoc.
  unfold Poll.sleep_step in Hsnoc.
  unfold go_sleep. cbn [with_count interval room_id].
  destruct (sleep_ok (interval th)); cbn [fst snd] in *;
    unfold tracks, with_count, at_;
    cbn [at_pc last_message_count room_id interval];
    rewrite Hsnoc; f_equal;
    by rewrite <- !app_assoc, <- !app_comm_cons, <- !app_assoc.
Qed.

(** The handler of lines 326-328: the cursor keeps its value. *)
Lemma tracks_handler now th evs0 rs r evs error :
  Poll.loop (room_id th) (interval th) 0 rs
    = {| Poll.events := evs0; Poll.cursor := last_message_count th;
         Poll.status := FlagCleared |} ->
  forall mid,
    (Poll.new_messages (last_message_count th) (get_messages r).1)
      = (mid, last_message_count th, Some error) ->
    evs = evs0 ++ EvFetch (room_id th) 10
            :: (EvPrint <$> (get_messages r).2) ++ (EvDisplay <$> mid) ->
    tracks (go_handler now error th).1
           (evs ++ (go_handler now error th).2) (rs ++ [r]).
Proof.
  intros Hon mid Hnew ->.
  pose proof (PollProps.loop_snoc _ _ _ _ _ r Hon) as Hsnoc.
  rewrite PollProps.iteration_spec in Hsnoc. cbn zeta in Hsnoc.
  rewrite Hnew in Hsnoc. cbn [fst snd Poll.ending] in Hsnoc.
  unfold Poll.handler in Hsnoc.
  unfold go_handler, Poll.handler. cbn [fst snd].
  destruct (sleep_ok (interval th)); cbn [fst snd] in *;
    unfold tracks, at_;
    cbn [at_pc last_message_count room_id interval];
    rewrite Hsnoc; f_equal;
    by rewrite <- !app_assoc, <- !app_comm_cons, <- !app_assoc.
Qed.

Lemma tracks_run flag now th th' evs' evs rs :
  poller_run flag now th = Some (th', evs') ->
  tracks th evs rs -> tracks th' (evs ++ evs') rs.
Proof.
  unfold poller_run. destruct (at_pc th) as [| |pending n|u|how] eqn:Hpc;
    try done.
  - (* loop head *)
    destruct flag; intros [= <- <-]; unfold tracks; rewrite Hpc; cbn.
    + eauto.
    + by rewrite app_nil_r.
  - destruct pending as [|[m|error] rest]; intros H; apply (inj Some) in H.
    + (* the for loop is over *)
      unfold tracks. rewrite Hpc.
      intros (rs0 & r & evs0 & items & done_ & -> & Hon & Hg & Hlt & -> & Hd
              & ->).
      rewrite app_nil_r in Hd.
      pose proof (f_equal fst H) as H1. pose proof (f_equal snd H) as H2.
      cbn [fst snd] in H1, H2. subst th' evs'.
      apply (tracks_sleep now th evs0 rs0 r _ Hon (length items) done_);
        [|done].
      rewrite Hg. unfold Poll.new_messages. rewrite decide_True by done.
      by rewrite <- Hd, PollProps.display_all_dicts.
    + (* line 321 *)
      injection H as <- <-. unfold tracks. rewrite Hpc. cbn.
      intros (rs0 & r & evs0 & items & done_ & -> & Hon & Hg & Hlt & -> & Hd
              & ->).
      exists rs0, r, evs0, items, (done_ ++ [m]).
      repeat split; try done.
      * by rewrite fmap_app, <- app_assoc.
      * rewrite fmap_app. cbn.
        by rewrite <- !app_assoc, <- !app_comm_cons, <- !app_assoc.
    + (* line 321 raises *)
      unfold tracks. rewrite Hpc.
      intros (rs0 & r & evs0 & items & done_ & -> & Hon & Hg & Hlt & -> & Hd
              & ->).
      pose proof (f_equal fst H) as H1. pose proof (f_equal snd H) as H2.
      cbn [fst snd] in H1, H2. subst th' evs'.
      apply (tracks_handler now th evs0 rs0 r _ error Hon done_); [|done].
      rewrite Hg. unfold Poll.new_messages. rewrite decide_True by done.
      rewrite <- Hd, PollProps.display_all_app. cbn.
      by rewrite app_nil_r.
  - (* waking up *)
    case_decide; [|done]. intros [= <- <-]. unfold tracks. rewrite Hpc. cbn.
    by rewrite app_nil_r.
Qed.

Lemma tracks_respond now r th th' evs' evs rs :
  poller_respond now r th = Some (th', evs') ->
  tracks th evs rs -> tracks th' (evs ++ evs') (rs ++ [r]).
Proof.
  unfold poller_respond. destruct (at_pc th) eqn:Hpc; try done.
  unfold tracks at 1. rewrite Hpc.
  destruct (get_messages r) as [messages printed] eqn:Hg.
  assert (forall evs0 evs1,
            (evs0 ++ [EvFetch (room_id th) 10]) ++ (EvPrint <$> printed) ++ evs1
            = (evs0 ++ EvFetch (room_id th) 10
                 :: (EvPrint <$> printed) ++ (EvDisplay <$> [])) ++ evs1)
    as Hshape.
  { intros evs0 evs1. cbn. by rewrite app_nil_r, <- !app_assoc. }
  assert (forall evs0,
            Poll.loop (room_id th) (interval th) 0 rs
            = {| Poll.events := evs0; Poll.cursor := last_message_count th;
                 Poll.status := FlagCleared |} ->
            Poll.new_messages (last_message_count th) messages
            = ([], last_message_count th, None) ->
            tracks (go_sleep now th).1
              (((evs0 ++ [EvFetch (room_id th) 10]))
                 ++ (EvPrint <$> printed) ++ (go_sleep now th).2)
              (rs ++ [r])) as Hsleep.
  { intros evs0 Hon Hnew. rewrite Hshape.
    pose proof (tracks_sleep now th evs0 rs r
                  (evs0 ++ EvFetch (room_id th) 10
                     :: (EvPrint <$> printed) ++ (EvDisplay <$> []))
                  Hon (last_message_count th) []) as Hs.
    rewrite with_count_same, Hg in Hs. by apply Hs. }
  assert (forall evs0 error,
            Poll.loop (room_id th) (interval th) 0 rs
            = {| Poll.events := evs0; Poll.cursor := last_message_count th;
                 Poll.status := FlagCleared |} ->
            Poll.new_messages (last_message_count th) messages
            = ([], last_message_count th, Some error) ->
            tracks (go_handler now error th).1
              (((evs0 ++ [EvFetch (room_id th) 10]))
                 ++ (EvPrint <$> printed) ++ (go_handler now error th).2)
              (rs ++ [r])) as Hhandler.
  { intros evs0 error Hon Hnew. rewrite Hshape.
    apply (tracks_handler now th evs0 rs r _ error Hon []); by rewrite Hg. }
  destruct messages as [items|error|size error].
  - case_decide as Hlt.
    + intros [= <- <-] (evs0 & -> & Hon). unfold tracks. cbn.
      exists rs, r, evs0, items, []. rewrite Hg. cbn.
      repeat split; try done.
      by rewrite <- !app_assoc.
    + intros H (evs0 & -> & Hon).
      assert (Poll.new_messages (last_message_count th) (Items items)
              = ([], last_message_count th, None)) as Hnew
        by (unfold Poll.new_messages; by rewrite decide_False).
      pose proof (Hsleep evs0 Hon Hnew) as Hs. revert H Hs.
      destruct (go_sleep now th) as [th1 evs1]. by intros [= <- <-].
  - intros H (evs0 & -> & Hon).
    pose proof (Hhandler evs0 error Hon eq_refl) as Hs. revert H Hs.
    destruct (go_handler now error th) as [th1 evs1]. by intros [= <- <-].
  - case_decide as Hlt; intros H (evs0 & -> & Hon).
    + assert (Poll.new_messages (last_message_count th) (NoSlice size error)
              = ([], last_message_count th, Some error)) as Hnew
        by (unfold Poll.new_messages; by rewrite decide_True).
      pose proof (Hhandler evs0 error Hon Hnew) as Hs. revert H Hs.
      destruct (go_handler now error th) as [th1 evs1]. by intros [= <- <-].
    + assert (Poll.new_messages (last_message_count th) (NoSlice size error)
              = ([], last_message_count th, None)) as Hnew
        by (unfold Poll.new_messages; by rewrite decide_False).
      pose proof (Hsleep evs0 Hon Hnew) as Hs. revert H Hs.
      destruct (go_sleep now th) as [th1 evs1]. by intros [= <- <-].
Qed.

Lemma simulates_ext s resp resp' :
  simulates s resp -> (forall t, resp t = resp' t) -> simulates s resp'.
Proof.
  intros [H1 H2 H3] He. split; [|done|].
  - intros t th Ht. rewrite <- He. by apply H1.
  - intros t Ht. rewrite <- He. by apply H3.
Qed.

Lemma init_simulates url : simulates (init url) (fun _ => []).
Proof.
  split; cbn; [done| |done]. intros t e Hin. by apply elem_of_nil in Hin.
Qed.

Lemma thread_events_unknown s resp t :
  simulates s resp -> length (threads s) <= t -> thread_events t (log s) = [].
Proof.
  intros S Hle. apply thread_events_none. intros e Hin.
  apply (sim_known _ _ S) in Hin. lia.
Qed.

Lemma tracks_fresh th : fresh th -> tracks th [] [].
Proof. intros [Hpc Hc]. unfold tracks. rewrite Hpc. cbn. by rewrite Hc. Qed.

(** A step of the main thread. *)
Lemma main_frame_simulates s s' resp :
  simulates s resp -> main_frame s s' -> simulates s' resp.
Proof.
  intros S [(extra & He & Hfresh) (news & Hn & Hp)]. split.
  - intros t th Ht. rewrite Hn, thread_events_app.
    rewrite (thread_events_none t news) by (intros e; apply Hp).
    rewrite app_nil_r. rewrite He in Ht.
    destruct (decide (t < length (threads s))) as [Hlt|Hge].
    + rewrite lookup_app_l in Ht by done. by apply (sim_threads _ _ S).
    + rewrite (thread_events_unknown _ _ _ S) by lia.
      rewrite (sim_unborn _ _ S) by lia.
      apply tracks_fresh. rewrite lookup_app_r in Ht by lia.
      rewrite Forall_forall in Hfresh.
      eapply Hfresh, list_elem_of_lookup_2, Ht.
  - intros t e. rewrite Hn, He, elem_of_app, length_app.
    intros [Hin|Hin]; [|by apply Hp in Hin].
    apply (sim_known _ _ S) in Hin. lia.
  - intros t. rewrite He, length_app. intros Hle.
    apply (sim_unborn _ _ S). lia.
Qed.

(** A step of polling thread [t0], which may consume the response [rs0]. *)
Lemma thread_step_simulates s resp t0 th th' evs' rs0 :
  simulates s resp ->
  threads s !! t0 = Some th ->
  (forall evs rs, tracks th evs rs -> tracks th' (evs ++ evs') (rs ++ rs0)) ->
  simulates
    {| now := now s; cl := cl s; threads := <[t0 := th']> (threads s);
       main := main s;
       log := log s ++ (ByPoller t0 <$> evs') ++ exit_entries t0 th' |}
    (fun t => resp t ++ if decide (t = t0) then rs0 else []).
Proof.
  intros S Ht0 Htr. pose proof (lookup_lt_Some _ _ _ Ht0) as Hlt.
  split; cbn [now cl threads main log].
  - intros t th1 Ht. rewrite thread_events_app.
    destruct (decide (t = t0)) as [->|Hne].
    + rewrite list_lookup_insert_eq in Ht by done. injection Ht as <-.
      rewrite thread_events_own. apply Htr. by apply (sim_threads _ _ S).
    + rewrite list_lookup_insert_ne in Ht by done.
      rewrite (thread_events_none t (_ ++ exit_entries _ _)), !app_nil_r;
        [by apply (sim_threads _ _ S)|].
      intros e Hin. by apply poller_entries in Hin.
  - intros t e. rewrite length_insert, elem_of_app.
    intros [Hin|Hin]; [by apply (sim_known _ _ S) in Hin|].
    by apply poller_entries in Hin as ->.
  - intros t. rewrite length_insert. intros Hle.
    rewrite decide_False by lia. rewrite app_nil_r.
    by apply (sim_unborn _ _ S).
Qed.

Lemma step_simulates s a s' resp :
  simulates s resp -> step s a = Some s' ->
  simulates s' (fun t => resp t ++ responses_to t [a]).
Proof.
  intros S Hs. pose proof (main_step_frame _ _ _ Hs) as Hf.
  destruct a as [d|t0|t0 r|k|]; cbn in Hs.
  - case_decide; [|done]. injection Hs as <-.
    apply simulates_ext with (resp := resp).
    + by destruct S.
    + intros t. cbn. by rewrite app_nil_r.
  - destruct (threads s !! t0) as [th|] eqn:Ht0; [|done]. cbn in Hs.
    destruct (poller_run _ _ th) as [[th' evs']|] eqn:Hr; [|done].
    injection Hs as <-.
    eapply simulates_ext.
    + apply (thread_step_simulates s resp t0 th th' evs' [] S Ht0).
      intros evs rs Htr. rewrite app_nil_r. by eapply tracks_run.
    + intros t. cbn. by destruct (decide (t = t0)).
  - destruct (threads s !! t0) as [th|] eqn:Ht0; [|done]. cbn in Hs.
    destruct (poller_respond _ _ th) as [[th' evs']|] eqn:Hr; [|done].
    injection Hs as <-.
    eapply simulates_ext.
    + apply (thread_step_simulates s resp t0 th th' evs' [r] S Ht0).
      intros evs rs Htr. by eapply tracks_respond.
    + intros t. cbn. destruct (decide (t = t0)) as [->|Hne].
      * by rewrite decide_True.
      * by rewrite decide_False by congruence.
  - apply simulates_ext with (resp := resp).
    + by apply (main_frame_simulates s).
    + intros t. cbn. by rewrite app_nil_r.
  - apply simulates_ext with (resp := resp).
    + by apply (main_frame_simulates s).
    + intros t. cbn. by rewrite app_nil_r.
Qed.

Lemma responses_to_cons t a acts :
  responses_to t (a :: acts) = responses_to t [a] ++ responses_to t acts.
Proof. apply (omap_app _ [a] acts). Qed.

Lemma run_simulates acts : forall s s' resp,
  simulates s resp -> run s acts = Some s' ->
  simulates s' (fun t => resp t ++ responses_to t acts).
Proof.
  induction acts as [|a acts IH]; intros s s' resp S; cbn [run].
  - intros [= <-]. apply simulates_ext with (resp := resp); [done|].
    intros t. cbn. by rewrite app_nil_r.
  - intros Hr. destruct (step s a) as [s1|] eqn:Hs; [|done]. cbn in Hr.
    eapply simulates_ext.
    + eapply IH; [|exact Hr]. by eapply step_simulates.
    + intros t. cbn beta. by rewrite (responses_to_cons t a acts), app_assoc.
Qed.

(** In every reachable state, each polling thread stands where
    [Poll.loop] stands on the responses the schedule handed to it. *)
Lemma thread_follows_loop url acts s t th :
  run (init url) acts = Some s ->
  threads s !! t = Some th ->
  tracks th (thread_events t (log s)) (responses_to t acts).
Proof.
  intros Hr Ht.
  pose proof (run_simulates _ _ _ _ (init_simulates url) Hr) as S.
  by apply (sim_threads _ _ S).
Qed.

(** What thread [t] has delivered is an initial part of what
    [poll_messages] delivers on the responses handed to [t]. *)
Lemma deliveries_follow_loop url acts s t th :
  run (init url) acts = Some s ->
  threads s !! t = Some th ->
  delivered_by t (log s)
    `prefix_of` Poll.displayed (Poll.events
       (Poll.poll_messages (room_id th) (interval th) (responses_to t acts))).
Proof.
  intros Hr Ht. pose proof (thread_follows_loop _ _ _ _ _ Hr Ht) as Htr.
  rewrite delivered_by_events. unfold Poll.poll_messages.
  revert Htr. generalize (thread_events t (log s)) as evs.
  generalize (responses_to t acts) as rs. intros rs evs. unfold tracks.
  destruct (at_pc th) as [| |pending n|u|[|]].
  - by intros ->.
  - intros (evs0 & -> & ->). cbn.
    rewrite PollProps.displayed_app. cbn. by rewrite app_nil_r.
  - intros (rs0 & r & evs0 & items & done_ & -> & Hon & Hg & Hlt & -> & Hd
            & ->).
    rewrite (PollProps.loop_snoc _ _ _ _ _ r Hon). cbn [Poll.events].
    rewrite !PollProps.displayed_app, PollProps.displayed_iteration.
    apply prefix_app. rewrite Hg. unfold Poll.new_messages.
    rewrite decide_True by done. rewrite <- Hd, PollProps.display_all_app.
    cbn. rewrite PollProps.displayed_app, PollProps.displayed_prints,
      PollProps.displayed_displays. cbn.
    destruct (Poll.display_all pending) as [shown [error|]]; cbn;
      by exists shown.
  - by intros ->.
  - by intros ->.
  - by intros ->.
Qed.

(** Over a stream of distinct messages served window by window, no
    polling thread of the system delivers a message twice, and it
    delivers in the order of the stream. *)
Lemma thread_deliveries_in_order stream offs url acts s t th :
  run (init url) acts = Some s ->
  threads s !! t = Some th ->
  Poll.sliding stream offs (responses_to t acts) ->
  delivered_by t (log s) `sublist_of` stream.
Proof.
  intros Hr Ht [Hw Hs].
  destruct (deliveries_follow_loop _ _ _ _ _ Hr Ht) as [rest Hp].
  trans (Poll.displayed (Poll.events
           (Poll.poll_messages (room_id th) (interval th)
              (responses_to t acts)))).
  - rewrite Hp. by apply sublist_inserts_r.
  - trans (drop (0 + 0) stream); [|apply sublist_drop].
    eapply PollProps.displayed_sublist; [done..|].
    apply Forall_forall. lia.
Qed.

(** [last_message_count] of a thread of the system is the cursor of
    [Poll.loop] on the cycles the thread has completed. *)
Lemma thread_cursor url acts s t th :
  run (init url) acts = Some s ->
  threads s !! t = Some th ->
  exists rs, Poll.cursor (Poll.loop (room_id th) (interval th) 0 rs)
             = last_message_count th.
Proof.
  intros Hr Ht. pose proof (thread_follows_loop _ _ _ _ _ Hr Ht) as Htr.
  revert Htr. unfold tracks.
  destruct (at_pc th) as [| |pending n|u|[|]].
  - intros Htr. eexists. by rewrite Htr.
  - intros (evs0 & _ & Htr). eexists. by rewrite Htr.
  - intros (rs0 & r & evs0 & items & done_ & _ & Hon & _). eexists.
    by rewrite Hon.
  - intros Htr. eexists. by rewrite Htr.
  - intros Htr. eexists. by rewrite Htr.
  - intros Htr. eexists. by rewrite Htr.
Qed.

End SessionProps.


(** * More on the polling loop *)

Module LoopProps.
Import Poll PollProps.

(** When nothing raised, every element was a dictionary. *)
Lemma display_all_none items shown :
  display_all items = (shown, None) -> items = Dict <$> shown.
Proof.
  revert shown. induction items as [|[m|error] items IH]; intros shown;
    cbn [display_all].
  - by intros [= <-].
  - destruct (display_all items) as [shown' raised]. intros [= <- ->].
    cbn. f_equal. by apply IH.
  - done.
Qed.


(** The cursor advances by no more than what the cycle delivered. *)
Lemma new_messages_length_le last ms :
  (new_messages last ms).1.2 <= length (new_messages last ms).1.1 + last.
Proof.
  unfold new_messages. destruct ms as [items|e|size e]; cbn; [|lia|].
  - case_decide; cbn; [|lia].
    destruct (display_all (drop last items)) as [shown [e|]] eqn:Hd; cbn;
      [lia|].
    apply display_all_none in Hd.
    apply (f_equal length) in Hd. rewrite length_drop, length_fmap in Hd.
    lia.
  - case_decide; cbn; lia.
Qed.

Lemma new_messages_max_le last ms :
  (new_messages last ms).1.2 <= last `max` Windows.size ms.
Proof.
  unfold new_messages. destruct ms as [items|e|size e]; cbn; [|lia|].
  - case_decide; cbn; [|lia].
    destruct (display_all (drop last items)) as [shown [e|]]; cbn; lia.
  - case_decide; cbn; lia.
Qed.

(** What lines 317-322 do on a window whose elements are all displayed. *)
Lemma new_messages_clean last r :
  Windows.clean r ->
  exists w, (get_messages r).1 = Items (Dict <$> w)
    /\ Windows.size (get_messages r).1 = length w
    /\ new_messages last (get_messages r).1
       = (if decide (last < length w) then drop last w else [],
          if decide (last < length w) then length w else last,
          None).
Proof.
  intros (w & Hw). exists w. rewrite Hw, new_messages_listing. cbn.
  by rewrite length_fmap.
Qed.

Lemma longest_cons r rs :
  Windows.longest (r :: rs)
  = Windows.size (get_messages r).1 `max` Windows.longest rs.
Proof. reflexivity. Qed.

Lemma cursor_le_displayed room interval rs : forall last,
  cursor (loop room interval last rs)
  <= length (displayed (events (loop room interval last rs))) + last.
Proof.
  induction rs as [|r rs IH]; intros last; [done|].
  rewrite loop_cons. cbn zeta.
  pose proof (displayed_iteration room interval last r) as Hd.
  pose proof (new_messages_length_le last (get_messages r).1) as Hn.
  rewrite iteration_spec in *. cbn [fst snd] in *.
  destruct (ending _ interval).2; cbn [events cursor].
  - rewrite displayed_app, Hd, length_app.
    etrans; [apply IH|]. lia.
  - by rewrite Hd.
Qed.

Lemma displayed_length room interval rs : forall last,
  Forall Windows.clean rs ->
  length (displayed (events (loop room interval last rs))) + last
  = cursor (loop room interval last rs).
Proof.
  intros last Hc. revert last.
  induction Hc as [|r rs Hr _ IH]; intros last; [done|].
  rewrite loop_cons. cbn zeta.
  pose proof (displayed_iteration room interval last r) as Hd.
  destruct (new_messages_clean last r Hr) as (w & _ & _ & Hn).
  rewrite iteration_spec in *. cbn [fst snd] in *.
  rewrite Hn in *. cbn [fst snd] in *.
  assert (length (if decide (last < length w) then drop last w else [])
          + last = if decide (last < length w) then length w else last)
    as Hlen.
  { case_decide; cbn; [rewrite length_drop|]; lia. }
  destruct (ending _ interval).2; cbn [events cursor].
  - rewrite displayed_app, Hd, length_app, <- IH. lia.
  - by rewrite Hd.
Qed.

(** The cursor never runs ahead of the deliveries: [last_message_count] is
    at most the number of messages delivered.  When every fetched element
    is a dictionary that [_display_message] displays, the two are equal,
    and over any further cycles the additional deliveries are as many as
    the cursor has moved. *)
Theorem delivered_count room interval rs1 rs2 :
  cursor (poll_messages room interval rs1)
  <= length (displayed (events (poll_messages room interval rs1)))
  /\ (Forall Windows.clean (rs1 ++ rs2) ->
      length (displayed (events (poll_messages room interval rs1)))
      = cursor (poll_messages room interval rs1)
      /\ length (displayed (events (poll_messages room interval (rs1 ++ rs2))))
         - length (displayed (events (poll_messages room interval rs1)))
         = cursor (poll_messages room interval (rs1 ++ rs2))
           - cursor (poll_messages room interval rs1)).
Proof.
  unfold poll_messages. split.
  - pose proof (cursor_le_displayed room interval rs1 0). lia.
  - intros Hc. pose proof Hc as Hc1. apply Forall_app in Hc1 as [Hc1 _].
    pose proof (displayed_length room interval rs1 0 Hc1) as H1.
    pose proof (displayed_length room interval (rs1 ++ rs2) 0 Hc) as H2.
    lia.
Qed.

Lemma samples_clean : Forall Windows.clean Samples.fetched.
Proof.
  unfold Samples.fetched.
  repeat (constructor; [first [by exists [] | by eexists]|]). constructor.
Qed.

Lemma delivered_count_witness :
  length (displayed (events (poll_messages "general" 2000 Samples.fetched)))
  = cursor (poll_messages "general" 2000 Samples.fetched).
Proof.
  destruct (delivered_count "general" 2000 Samples.fetched []) as [_ H].
  apply H. rewrite app_nil_r. apply samples_clean.
Defined.



Lemma cursor_le_longest room interval rs : forall last,
  cursor (loop room interval last rs) <= last `max` Windows.longest rs.
Proof.
  induction rs as [|r rs IH]; intros last; [cbn; lia|].
  rewrite loop_cons, iteration_spec, longest_cons. cbn zeta. cbn [fst snd].
  pose proof (new_messages_max_le last (get_messages r).1) as Hm.
  destruct (ending _ interval).2; cbn [cursor].
  - etrans; [apply IH|]. lia.
  - lia.
Qed.

Lemma longest_bound n rs :
  Forall (fun r => Windows.size (get_messages r).1 <= n) rs ->
  Windows.longest rs <= n.
Proof.
  induction 1 as [|r rs Hr _ IH]; [cbn; lia|]. rewrite longest_cons. lia.
Qed.

(** When every fetched element is a dictionary that [_display_message]
    displays and no window holds more than [n] of them, as with a server
    that honours [limit], a loop delivers at most [n] messages in all,
    however many cycles it runs. *)
Theorem deliveries_bounded_by_window room interval rs n :
  Forall Windows.clean rs ->
  Forall (fun r => Windows.size (get_messages r).1 <= n) rs ->
  length (displayed (events (poll_messages room interval rs))) <= n.
Proof.
  intros Hclean Hn. unfold poll_messages.
  pose proof (displayed_length room interval rs 0 Hclean) as Hc.
  pose proof (cursor_le_longest room interval rs 0) as Hl.
  pose proof (longest_bound n rs Hn). lia.
Qed.

Lemma deliveries_bounded_by_window_witness :
  length (displayed (events (poll_messages "general" 2000 Samples.fetched)))
  <= 4.
Proof.
  apply (deliveries_bounded_by_window "general" 2000 Samples.fetched 4).
  - apply samples_clean.
  - unfold Samples.fetched. repeat constructor.
Defined.

(** In a room whose history only grows and is served from its start,
    each window being an initial part of the stream, given as
    dictionaries that are all displayed, the loop has delivered exactly
    the first [cursor] messages of the stream, in order, each once. *)
Theorem append_only_delivers_all (stream : list Message) room interval rs :
  Forall (fun r => exists w, (get_messages r).1 = Items (Dict <$> w)
                             /\ w `prefix_of` stream) rs ->
  displayed (events (poll_messages room interval rs))
  = take (cursor (poll_messages room interval rs)) stream.
Proof.
  intros Hp. unfold poll_messages.
  assert (forall last,
    displayed (events (loop room interval last rs))
    = take (cursor (loop room interval last rs) - last) (drop last stream))
    as Hgen.
  { induction Hp as [|r rs Hr _ IH]; intros last.
    - cbn. by rewrite Nat.sub_diag.
    - rewrite loop_cons. cbn zeta.
      pose proof (displayed_iteration room interval last r) as Hd.
      rewrite iteration_spec in *. cbn [fst snd] in *.
      destruct Hr as (w & Hg & Hr). rewrite Hg in *.
      set (nm := new_messages last (Items (Dict <$> w))) in *.
      assert (nm.1.1 = take (nm.1.2 - last) (drop last stream)) as Hnew.
      { unfold nm. rewrite new_messages_listing. cbn [fst snd].
        case_decide as Hlt.
        - destruct Hr as [rest ->]. rewrite drop_app_le by lia.
          rewrite take_app_length'; [done|]. rewrite length_drop. lia.
        - by rewrite Nat.sub_diag. }
      pose proof (new_messages_cursor last (Items (Dict <$> w))) as Hge.
      fold nm in Hge.
      destruct (ending _ interval).2; cbn [events cursor].
      + rewrite displayed_app, Hd, IH, Hnew.
        pose proof (loop_cursor_ge room interval rs nm.1.2) as Hge'.
        set (c := cursor (loop room interval nm.1.2 rs)) in *.
        set (l' := nm.1.2) in *.
        replace (drop l' stream) with (drop (l' - last) (drop last stream))
          by (rewrite drop_drop; f_equal; lia).
        rewrite take_take_drop. f_equal. lia.
      + by rewrite Hd, Hnew. }
  rewrite Hgen. by rewrite Nat.sub_0_r.
Qed.

Lemma append_only_delivers_all_witness :
  displayed (events (poll_messages "general" 2000
     [listing [Samples.m1]; Raised InvalidJson;
      listing [Samples.m1; Samples.m2; Samples.m3]]))
  = [Samples.m1; Samples.m2; Samples.m3].
Proof.
  rewrite (append_only_delivers_all Samples.stream).
  - vm_compute. reflexivity.
  - repeat constructor.
    + eexists. split; [reflexivity|].
      by exists [Samples.m2; Samples.m3; Samples.m4; Samples.m5; Samples.m6].
    + exists []. split; [reflexivity|]. by exists Samples.stream.
    + eexists. split; [reflexivity|].
      by exists [Samples.m4; Samples.m5; Samples.m6].
Defined.

(** With a negative interval the thread function ends in its first cycle:
    the fetch is made and messages are displayed as in any cycle; then
    either [time.sleep] raises in the [try] body or an exception of lines
    317-321 has already reached the handler, which prints it, and the
    [time.sleep] of the handler raises out of the thread function. Later
    answers are never asked for. *)
Theorem negative_interval_one_cycle room interval last r rs :
  (interval < 0)%Z ->
  let nm := new_messages last (get_messages r).1 in
  loop room interval last (r :: rs)
  = {| events := EvFetch room 10 :: (EvPrint <$> (get_messages r).2)
                   ++ (EvDisplay <$> nm.1.1)
                   ++ [EvPrint ("Error polling messages: "
                          +:+ default "sleep length must be non-negative"
                                nm.2)];
       cursor := nm.1.2;
       status := Died |}.
Proof.
  intros Hi nm. rewrite loop_cons, iteration_spec. cbn zeta. cbn [fst snd].
  fold nm. rewrite (ending_dead _ _ Hi).
  assert (sleep_ok interval = false) as Hok by (unfold sleep_ok; lia).
  destruct nm.2 as [error|]; cbn [ending default];
    unfold handler, sleep_step; by rewrite Hok.
Qed.

Lemma negative_interval_one_cycle_witness :
  events (loop "general" (-1) 0
            [listing [Samples.m1]; listing [Samples.m1; Samples.m2]])
  = [EvFetch "general" 10; EvDisplay Samples.m1; EvPrint sleep_error_line].
Proof.
  rewrite (negative_interval_one_cycle "general" (-1) 0); [|lia].
  reflexivity.
Defined.




End LoopProps.


(** * More on the session *)

Module FlagProps.
Import Session SessionProps Restart.








(** The flag is only ever set together with a thread object. *)
Lemma step_flag_thread s a s' :
  (message_polling (cl s) = true -> is_Some (polling_thread (cl s))) ->
  step s a = Some s' ->
  message_polling (cl s') = true -> is_Some (polling_thread (cl s')).
Proof.
  intros F Hs. destruct a as [d|t|t r|k|]; cbn in Hs.
  - case_decide; [|done]. by injection Hs as <-.
  - destruct (threads s !! t) as [th|]; [|done]. cbn in Hs.
    destruct (poller_run _ _ _) as [[th' evs]|]; [|done].
    by injection Hs as <-.
  - destruct (threads s !! t) as [th|]; [|done]. cbn in Hs.
    destruct (poller_respond _ _ _) as [[th' evs]|]; [|done].
    by injection Hs as <-.
  - unfold invoke in Hs. destruct (main s); [|done].
    unfold enter_stop, stop_enter in Hs. cbn [cl] in Hs.
    destruct k as [room ival| |];
      destruct (message_polling (cl s)) eqn:Hf;
      try destruct (polling_thread (cl s)) eqn:Hp;
      apply (inj Some) in Hs; subst s'; cbn; try done;
      try (by intros _; eexists); by rewrite ?Hf, ?Hp.
  - unfold resume in Hs. destruct (main s) as [|t d k]; [done|].
    destruct (_ || _); [|done]. apply (inj Some) in Hs. subst s'.
    destruct k as [room ival| |]; cbn; done.
Qed.

Lemma run_flag_thread acts : forall s s',
  (message_polling (cl s) = true -> is_Some (polling_thread (cl s))) ->
  run s acts = Some s' ->
  message_polling (cl s') = true -> is_Some (polling_thread (cl s')).
Proof.
  induction acts as [|a acts IH]; intros s s' F; cbn [run].
  - by intros [= <-].
  - destruct (step s a) as [s1|] eqn:Hs; [|done]. cbn.
    apply IH. by eapply step_flag_thread.
Qed.

(** In every reachable state in which [message_polling] is true,
    [polling_thread] holds a thread object, the one created last: the test
    of line 339 cannot fail when line 338 has run. *)
Theorem flag_implies_thread url acts s :
  run (init url) acts = Some s ->
  message_polling (cl s) = true ->
  exists t, polling_thread (cl s) = Some t /\ S t = length (threads s).
Proof.
  intros Hr Hf.
  destruct (run_flag_thread acts (init url) s) as [t Ht]; [done..|].
  exists t. split; [done|].
  by apply (inv_latest _ (reachable_inv _ _ _ Hr)).
Qed.


Lemma flag_implies_thread_witness :
  exists s,
    run (init Samples.url) Samples.restart_during_sleep = Some s
    /\ exists t, polling_thread (cl s) = Some t /\ S t = length (threads s).
Proof.
  eexists. split; [vm_compute; reflexivity|].
  apply (flag_implies_thread Samples.url Samples.restart_during_sleep).
  - vm_compute. reflexivity.
  - reflexivity.
Defined.

(** What a polling thread delivers depends on the responses it receives
    only, not on timing, on the calls of the main thread or on other
    threads: under any schedule its deliveries are an initial part of
    those of the loop run on its own on these responses, so that two runs
    handing the same responses to threads of the same room and interval
    yield deliveries one of which is an initial part of the other. *)
Theorem deliveries_depend_on_responses url1 acts1 s1 t1 th1
    url2 acts2 s2 t2 th2 :
  run (init url1) acts1 = Some s1 -> threads s1 !! t1 = Some th1 ->
  run (init url2) acts2 = Some s2 -> threads s2 !! t2 = Some th2 ->
  room_id th1 = room_id th2 -> interval th1 = interval th2 ->
  responses_to t1 acts1 = responses_to t2 acts2 ->
  delivered_by t1 (log s1)
    `prefix_of` Poll.displayed (Poll.events
       (Poll.poll_messages (room_id th1) (interval th1)
          (responses_to t1 acts1)))
  /\ (delivered_by t1 (log s1) `prefix_of` delivered_by t2 (log s2)
      \/ delivered_by t2 (log s2) `prefix_of` delivered_by t1 (log s1)).
Proof.
  intros Hr1 Ht1 Hr2 Ht2 Hroom Hival Hresp.
  pose proof (deliveries_follow_loop _ _ _ _ _ Hr1 Ht1) as H1.
  pose proof (deliveries_follow_loop _ _ _ _ _ Hr2 Ht2) as H2.
  split; [done|]. rewrite <- Hroom, <- Hival, <- Hresp in H2.
  by eapply prefix_weak_total.
Qed.

Lemma deliveries_depend_on_responses_witness :
  exists s1 th1 s2 th2,
    run (init Samples.url) Samples.stop_during_fetch = Some s1
    /\ threads s1 !! 0 = Some th1
    /\ run (init Samples.url) Samples.stop_then_wait = Some s2
    /\ threads s2 !! 0 = Some th2
    /\ delivered_by 0 (log s1)
         `prefix_of` Poll.displayed (Poll.events
            (Poll.poll_messages (room_id th1) (interval th1)
               (responses_to 0 Samples.stop_during_fetch)))
    /\ (delivered_by 0 (log s1) `prefix_of` delivered_by 0 (log s2)
        \/ delivered_by 0 (log s2) `prefix_of` delivered_by 0 (log s1)).
Proof.
  eexists. eexists. eexists. eexists.
  split; [vm_compute; reflexivity|]. split; [reflexivity|].
  split; [vm_compute; reflexivity|]. split; [reflexivity|].
  eapply (deliveries_depend_on_responses
            Samples.url Samples.stop_during_fetch _ 0 _
            Samples.url Samples.stop_then_wait);
    first [vm_compute; reflexivity | reflexivity].
Defined.

(** A thread of the system on an answer with an element that is not a
    dictionary: the first element is displayed in both cycles and
    [last_message_count] is still 0. *)
Example element_without_get_trace :
  (fun s => (log s, last_message_count <$> threads s))
    <$> run (init Samples.url) MoreSamples.element_without_get
  = Some ([ Called (CallStart "general" 2000); Spawned 0;
            MainPrint "Started message polling for room general";
            Returned (CallStart "general" 2000);
            ByPoller 0 (EvFetch "general" 10);
            ByPoller 0 (EvDisplay Samples.m1);
            ByPoller 0 (EvPrint
              "Error polling messages: 'str' object has no attribute 'get'");
            ByPoller 0 (EvSleep 2000);
            ByPoller 0 (EvFetch "general" 10);
            ByPoller 0 (EvDisplay Samples.m1) ],
          [0]).
Proof. vm_compute. reflexivity. Qed.

Lemma logout_in_system_witness :
  exists s s',
    run (init Samples.url) MoreSamples.polling = Some s
    /\ run s (Invoke CallLogout :: MoreSamples.join_times_out) = Some s'
    /\ cl s' = (logout (cl s)).1.
Proof.
  eexists. eexists. split; [vm_compute; reflexivity|].
  split; [vm_compute; reflexivity|].
  apply (logout_in_system _ MoreSamples.join_times_out).
  - vm_compute. reflexivity.
  - unfold MoreSamples.join_times_out. by repeat constructor.
  - reflexivity.
Defined.

End FlagProps.


(** * Properties of [_make_request] and [test_connection] *)

Module ApiProps.
Import Api.

Section WithRepr.
Variable repr_compound : json -> string.

Lemma make_request_inr o result :
  _make_request repr_compound o = inr result ->
  exists fields status msg,
    result = JObj fields
    /\ o = Reply status msg (Json result)
    /\ is_error_status status = false
    /\ truthy (default (JBool true) (fields !! "success")) = true.
Proof.
  destruct o as [m|status msg [res|[m| |e]]]; cbn; try done;
    destruct (is_error_status status) eqn:Hs; try done.
  unfold check_success.
  destruct res as [| | | | |fields]; try done. cbn.
  destruct (truthy (default (JBool true) (fields !! "success"))) eqn:Ht.
  - intros [= <-]. by exists fields, status, msg.
  - by destruct (default (JObj ∅) (fields !! "error")).
Qed.

(** [_make_request] returns only a dictionary whose ['success'] entry is
    absent or true in the sense of [bool]: the body of a reply without
    error status, returned as it was decoded; and every such reply gets
    its body returned. *)
Theorem returns_only_success o result :
  _make_request repr_compound o = inr result <->
  exists fields status msg,
    result = JObj fields
    /\ o = Reply status msg (Json result)
    /\ is_error_status status = false
    /\ truthy (default (JBool true) (fields !! "success")) = true.
Proof.
  split; [apply make_request_inr|].
  intros (fields & status & msg & -> & -> & Hs & Ht).
  cbn. rewrite Hs. unfold check_success. cbn. by rewrite Ht.
Qed.

(** A reply with a client or server error status makes [_make_request]
    raise a [RequestException], whatever the body says. *)
Theorem error_status_raises status msg content :
  400 <= status < 600 ->
  _make_request repr_compound (Reply status msg content)
  = inl (RequestException ("Network error: " +:+ msg)).
Proof.
  intros Hs. cbn. unfold is_error_status. by rewrite bool_decide_eq_true_2.
Qed.

(** A decoded dictionary whose ['success'] entry is false in the sense of
    [bool]: the exception is the documented [ValueError] when the
    ['error'] entry is absent or a dictionary, and an [AttributeError]
    when it is anything else, [null] included. *)
Theorem api_error status msg fields :
  ~ 400 <= status < 600 ->
  truthy (default (JBool true) (fields !! "success")) = false ->
  _make_request repr_compound (Reply status msg (Json (JObj fields)))
  = match fields !! "error" with
    | None => inl (ValueError "API Error: Unknown API error")
    | Some (JObj error) =>
        inl (ValueError
               ("API Error: "
                  +:+ json_str repr_compound
                        (default (JStr "Unknown API error")
                           (error !! "message"))))
    | Some v =>
        inl (AttributeError
               ("'" +:+ type_name v +:+ "' object has no attribute 'get'"))
    end.
Proof.
  intros Hs Ht. cbn. unfold is_error_status.
  rewrite bool_decide_eq_false_2 by done.
  unfold check_success. cbn. rewrite Ht.
  destruct (fields !! "error") as [[]|]; reflexivity.
Qed.

(** [test_connection] answers [True] exactly when the reply has no error
    status, its body is a dictionary whose ['success'] is absent or true,
    and ['data'] is a dictionary whose ['status'] is the string ["ok"]. *)
Theorem test_connection_true_iff o :
  (test_connection repr_compound o).1 = true <->
  exists status msg fields data,
    o = Reply status msg (Json (JObj fields))
    /\ is_error_status status = false
    /\ truthy (default (JBool true) (fields !! "success")) = true
    /\ fields !! "data" = Some (JObj data)
    /\ data !! "status" = Some (JStr "ok").
Proof.
  split.
  - unfold test_connection.
    destruct (_make_request repr_compound o) as [e|response] eqn:Hr; [done|].
    apply make_request_inr in Hr
      as (fields & status & msg & -> & -> & Hs & Ht).
    cbn. destruct (fields !! "data") as [[| | | | |data]|] eqn:Hd; cbn;
      try done.
    destruct (data !! "status") as [[| | |s| |]|] eqn:Hst; cbn; try done.
    intros Heq. apply String.eqb_eq in Heq as ->.
    by exists status, msg, fields, data.
  - intros (status & msg & fields & data & -> & Hs & Ht & Hd & Hst).
    unfold test_connection. cbn. rewrite Hs. unfold check_success. cbn.
    rewrite Ht. cbn. rewrite Hd. cbn. by rewrite Hst.
Qed.

(** Whatever [get_rooms] returns other than its fallback [[]] is the
    ['data'] entry of a reply without error status whose body is a
    dictionary with ['success'] absent or true: rooms never come out of a
    failed request or of a reply that reports an API error. *)
Theorem rooms_only_from_success o rooms :
  (get_rooms repr_compound o).1 = rooms ->
  rooms = JArr []
  \/ exists status msg fields,
       o = Reply status msg (Json (JObj fields))
       /\ is_error_status status = false
       /\ truthy (default (JBool true) (fields !! "success")) = true
       /\ fields !! "data" = Some rooms.
Proof.
  unfold get_rooms.
  destruct (_make_request repr_compound o) as [e|response] eqn:Hr;
    [intros <-; by left|].
  apply returns_only_success in Hr
    as (fields & status & msg & -> & -> & Hs & Ht).
  cbn. destruct (fields !! "data") as [data|] eqn:Hd; cbn; intros <-.
  - right. by exists status, msg, fields.
  - by left.
Qed.

End WithRepr.

Lemma rooms_only_from_success_witness :
  JArr [JObj {[ "name" := JStr "general" ]}] = JArr []
  \/ exists status msg fields,
       Reply 200 "" (Json (JObj {[ "data" :=
                        JArr [JObj {[ "name" := JStr "general" ]}] ]}))
       = Reply status msg (Json (JObj fields))
       /\ is_error_status status = false
       /\ truthy (default (JBool true) (fields !! "success")) = true
       /\ fields !! "data" = Some (JArr [JObj {[ "name" := JStr "general" ]}]).
Proof.
  apply (rooms_only_from_success (fun _ => "")
           (Reply 200 "" (Json (JObj {[ "data" :=
                            JArr [JObj {[ "name" := JStr "general" ]}] ]})))).
  reflexivity.
Defined.

Lemma error_status_raises_witness :
  _make_request (fun _ => "")
    (Reply 401 "401 Client Error: Unauthorized for url: http://x/rooms"
       (Json (JObj {[ "success" := JBool true; "data" := JArr [] ]})))
  = inl (RequestException
     "Network error: 401 Client Error: Unauthorized for url: http://x/rooms").
Proof.
  rewrite (error_status_raises (fun _ => "") 401); [reflexivity | lia].
Defined.

Lemma api_error_witness :
  _make_request (fun _ => "")
    (Reply 200 "" (Json (JObj {[ "success" := JBool false;
                                "error" := JNull ]})))
  = inl (AttributeError "'NoneType' object has no attribute 'get'").
Proof.
  rewrite (api_error (fun _ => "") 200); [reflexivity | lia | reflexivity].
Defined.

Lemma returns_only_success_witness :
  _make_request (fun _ => "")
    (Reply 200 "" (Json (JObj {[ "data" := JArr [] ]})))
  = inr (JObj {[ "data" := JArr [] ]}).
Proof.
  apply (returns_only_success (fun _ => "")).
  exists {[ "data" := JArr [] ]}, 200, "". repeat split; reflexivity.
Defined.

Lemma test_connection_true_iff_witness :
  (test_connection (fun _ => "")
     (Reply 200 "" (Json (JObj {[ "success" := JBool true;
        "data" := JObj {[ "status" := JStr "ok" ]} ]})))).1 = true.
Proof.
  apply (test_connection_true_iff (fun _ => "")).
  exists 200, "", {[ "success" := JBool true;
                     "data" := JObj {[ "status" := JStr "ok" ]} ]},
    {[ "status" := JStr "ok" ]}.
  repeat split; reflexivity.
Defined.

Example api_error_message :
  _make_request (fun _ => "")
    (Reply 200 "" (Json (JObj {[ "success" := JBool false;
        "error" := JObj {[ "message" := JStr "room not found" ]} ]})))
  = inl (ValueError "API Error: room not found").
Proof. reflexivity. Qed.

Example test_connection_ok :
  test_connection (fun _ => "")
    (Reply 200 "" (Json (JObj {[ "data" := JObj {[ "status" := JStr "ok" ]} ]})))
  = (true, []).
Proof. reflexivity. Qed.

Example test_connection_list_body :
  test_connection (fun _ => "") (Reply 200 "" (Json (JArr [])))
  = (false, ["Connection test failed: 'list' object has no attribute 'get'"]).
Proof. reflexivity. Qed.

End ApiProps.


(** * Properties of [__init__], [login] and [logout] together *)

Module AuthProps.
Import Session SessionProps Auth.

Lemma token_given_Some tok t :
  token_given tok = Some t <-> tok = Some t /\ t <> "".
Proof.
  unfold token_given. destruct tok as [t'|]; [|by split; [|intros []]].
  destruct (String.eqb_spec t' "") as [->|Hne]; split.
  - done.
  - by intros [[= ->] ?].
  - intros [= ->]. done.
  - by intros [[= ->] _].
Qed.

(** When [login] returns [True] the reply carried a non-empty token and a
    user; the client holds both, and the session sends
    [Authorization: Bearer <token>] from then on. *)
Theorem login_success r c :
  (login r c).1.2 = true ->
  exists tok u,
    r = inr {| access_token := Some tok; user := Some u |}
    /\ tok <> ""
    /\ token (login r c).1.1 = Some tok
    /\ user_info (login r c).1.1 = Some u
    /\ headers (login r c).1.1 !! lower "Authorization"
       = Some ("Authorization", "Bearer " +:+ tok).
Proof.
  unfold login. destruct r as [e|[tok u]]; [done|]. cbn [access_token user].
  destruct (token_given tok) as [t|] eqn:Ht; [|done].
  apply token_given_Some in Ht as [-> Hne].
  destruct u as [u|]; [|done]. intros _. exists t, u. cbn.
  repeat split; try done. unfold Headers.set. apply lookup_insert_eq.
Qed.

Lemma login_success_witness :
  exists tok u,
    inr {| access_token := Some "abc"; user := Some Samples.m1 |}
    = inr (A := Api.exn) {| access_token := Some tok; user := Some u |}
    /\ tok <> ""
    /\ token (login (inr {| access_token := Some "abc";
                            user := Some Samples.m1 |})
                (new_client Samples.url)).1.1 = Some tok
    /\ user_info (login (inr {| access_token := Some "abc";
                                user := Some Samples.m1 |})
                    (new_client Samples.url)).1.1 = Some u
    /\ headers (login (inr {| access_token := Some "abc";
                              user := Some Samples.m1 |})
                  (new_client Samples.url)).1.1 !! lower "Authorization"
       = Some ("Authorization", "Bearer " +:+ tok).
Proof.
  apply (login_success (inr {| access_token := Some "abc";
                               user := Some Samples.m1 |})
           (new_client Samples.url)).
  reflexivity.
Defined.

(** A reply with a non-empty token but no user: [login] returns [False]
    and prints a failure, yet the token is stored and the Authorization
    header is set. *)
Theorem login_token_without_user tok c :
  tok <> "" ->
  let r := inr {| access_token := Some tok; user := None |} in
  (login r c).1.2 = false
  /\ (login r c).2 = ["Login failed: " +:+ no_get_on_none]
  /\ token (login r c).1.1 = Some tok
  /\ user_info (login r c).1.1 = None
  /\ headers (login r c).1.1
     = Headers.set "Authorization" ("Bearer " +:+ tok) (headers c).
Proof.
  intros Hne r. unfold r, login. cbn [access_token user].
  assert (token_given (Some tok) = Some tok) as ->
    by by apply token_given_Some.
  done.
Qed.

Lemma login_token_without_user_witness :
  headers (login (inr {| access_token := Some "abc"; user := None |})
             (new_client Samples.url)).1.1 !! "authorization"
  = Some ("Authorization", "Bearer abc").
Proof.
  destruct (login_token_without_user "abc" (new_client Samples.url))
    as (_ & _ & _ & _ & ->); [done|]. reflexivity.
Defined.

(** A reply without a usable token (absent, null or empty) stores that
    token and the user but leaves the session headers alone: an
    Authorization header of an earlier login stays in place. A request
    that raises changes nothing at all. *)
Theorem login_without_token_keeps_headers r c :
  (forall response, r = inr response ->
     token_given (access_token response) = None) ->
  (login r c).1.2 = false
  /\ headers (login r c).1.1 = headers c
  /\ match r with
     | inl _ => (login r c).1.1 = c
     | inr response =>
         token (login r c).1.1 = access_token response
         /\ user_info (login r c).1.1 = user response
     end.
Proof.
  intros H. unfold login. destruct r as [e|response]; [done|].
  by rewrite (H response eq_refl).
Qed.

Lemma login_without_token_keeps_headers_witness :
  let c := (login (inr {| access_token := Some "abc";
                          user := Some Samples.m1 |})
              (new_client Samples.url)).1.1 in
  let c' := (login (inr {| access_token := None; user := None |}) c).1.1 in
  token c' = None
  /\ headers c' !! "authorization" = Some ("Authorization", "Bearer abc").
Proof.
  intros c c'.
  destruct (login_without_token_keeps_headers
              (inr {| access_token := None; user := None |}) c)
    as (_ & Hh & Ht & _).
  - by intros response [= <-].
  - unfold c'. rewrite Hh. split; [exact Ht | reflexivity].
Defined.

Lemma contains_false key (h : Headers.t) :
  Headers.contains key h = false -> h !! lower key = None.
Proof.
  unfold Headers.contains. intros H. apply bool_decide_eq_false in H.
  destruct (h !! lower key) eqn:E; [|done]. destruct H. by eexists.
Qed.

Lemma contains_set key value (h : Headers.t) :
  Headers.contains key (Headers.set key value h) = true.
Proof.
  unfold Headers.contains, Headers.set. apply bool_decide_eq_true.
  rewrite lookup_insert_eq. by eexists.
Qed.

Lemma headers_logout c :
  headers (logout c).1
  = if Headers.contains "Authorization" (headers c)
    then Headers.del "Authorization" (headers c) else headers c.
Proof.
  rewrite logout_fst. unfold stop_message_polling, stop_enter.
  by destruct (message_polling c).
Qed.

(** For a client without Authorization header, [login] followed by
    [logout] gives back the session headers it started from, whatever the
    reply to the login was. *)
Theorem login_logout_headers r c :
  Headers.contains "Authorization" (headers c) = false ->
  headers (logout (login r c).1.1).1 = headers c.
Proof.
  intros Hc. rewrite headers_logout.
  assert (headers (login r c).1.1 = headers c
          \/ exists v, headers (login r c).1.1
                       = Headers.set "Authorization" v (headers c))
    as [-> | [v ->]].
  { unfold login. destruct r as [e|[tok u]]; cbn [access_token user];
      [by left|].
    destruct (token_given tok) as [t|]; [|by left].
    destruct u as [u|]; right; by eexists. }
  - by rewrite Hc.
  - rewrite contains_set. unfold Headers.del, Headers.set.
    rewrite delete_insert_eq. apply delete_id. by apply contains_false.
Qed.

Lemma login_logout_headers_witness :
  headers (logout (login (inr {| access_token := Some "abc";
                                 user := Some Samples.m1 |})
                     (new_client Samples.url)).1.1).1
  = headers (new_client Samples.url).
Proof.
  apply (login_logout_headers _ (new_client Samples.url)). reflexivity.
Defined.

(** *** The base URL *)

Lemma rstrip_slash_cons c url :
  rstrip_slash (String c url)
  = if Ascii.eqb c "/"%char && String.eqb (rstrip_slash url) ""
    then "" else String c (rstrip_slash url).
Proof. reflexivity. Qed.

Lemma rstrip_slash_slashes n : rstrip_slash (slashes n) = "".
Proof.
  induction n as [|n IH]; [done|].
  change (slashes (S n)) with (String "/"%char (slashes n)).
  by rewrite rstrip_slash_cons, IH.
Qed.

Lemma rstrip_slash_app_slashes url n :
  rstrip_slash (url +:+ slashes n) = rstrip_slash url.
Proof.
  induction url as [|c url IH].
  - apply rstrip_slash_slashes.
  - change (String c url +:+ slashes n) with (String c (url +:+ slashes n)).
    by rewrite !rstrip_slash_cons, IH.
Qed.

Lemma rstrip_slash_decompose url :
  exists n, url = rstrip_slash url +:+ slashes n.
Proof.
  induction url as [|c url [n IH]]; [by exists 0|].
  rewrite rstrip_slash_cons.
  destruct (Ascii.eqb_spec c "/") as [->|Hc]; cbn [andb].
  - destruct (String.eqb_spec (rstrip_slash url) "") as [He|He].
    + exists (S n). rewrite He in IH. rewrite IH. reflexivity.
    + exists n. rewrite IH at 1. reflexivity.
  - exists n. rewrite IH at 1. reflexivity.
Qed.

Lemma rstrip_slash_no_trailing url : forall s,
  rstrip_slash url <> s +:+ "/".
Proof.
  induction url as [|c url IH]; intros s.
  - by destruct s.
  - rewrite rstrip_slash_cons.
    destruct (Ascii.eqb_spec c "/") as [->|Hc]; cbn [andb].
    + destruct (String.eqb_spec (rstrip_slash url) "") as [He|He].
      * by destruct s.
      * destruct s as [|c' s].
        -- intros [= H]. done.
        -- intros [= _ H]. by apply IH in H.
    + destruct s as [|c' s].
      * intros [= -> _]. done.
      * intros [= _ H]. by apply IH in H.
Qed.

(** The base URL of a client is the URL it was built from without its
    trailing slashes: it never ends with a slash, and URLs that differ
    only in trailing slashes give the same client, so that
    [base_url + endpoint] has a single slash at the joint for the
    endpoints of this file. *)
Theorem base_url_normalised url :
  (exists n, url = base_url (new_client url) +:+ slashes n)
  /\ (forall s, base_url (new_client url) <> s +:+ "/")
  /\ forall n, new_client (url +:+ slashes n) = new_client url.
Proof.
  split; [apply rstrip_slash_decompose|]. split.
  - apply rstrip_slash_no_trailing.
  - intros n. unfold new_client. by rewrite rstrip_slash_app_slashes.
Qed.

Example request_url_default :
  request_url (new_client "http://127.0.0.1:8082/api/v1/") "/auth/login"
  = "http://127.0.0.1:8082/api/v1/auth/login".
Proof. reflexivity. Qed.

End AuthProps.

(** * The demo and the polling loop *)

Module DemoProps.
Import Poll PollProps.

(** The demo shows the last five elements of the fetched list (all of
    them when there are fewer), then starts the polling loop.  When the
    fetched elements are dictionaries that [_display_message] displays,
    the demo displays these last five, and if the first fetch of the loop
    returns the same window, each of them is displayed a second time. *)
Theorem recent_displayed_again (messages : list Message) room interval rs :
  length (Demo.recent messages) = 5 `min` length messages
  /\ Demo.recent messages `suffix_of` messages
  /\ display_all (Demo.recent (Dict <$> messages))
     = (Demo.recent messages, None)
  /\ forall m, m ∈ Demo.recent messages ->
       m ∈ displayed (events (poll_messages room interval
                                (listing messages :: rs))).
Proof.
  unfold Demo.recent. split; [rewrite length_drop; lia|].
  split; [apply suffix_drop|]. split.
  { by rewrite length_fmap, <- fmap_drop, display_all_dicts. }
  intros m Hm.
  assert (m ∈ messages) as Hin.
  { rewrite <- (take_drop (length messages - 5) messages).
    apply elem_of_app. by right. }
  destruct (displayed_loop_cons room interval 0 (listing messages) rs)
    as (rest & Hd & _).
  unfold poll_messages. rewrite Hd. apply elem_of_app. left.
  change (get_messages (listing messages)).1 with (Items (Dict <$> messages)).
  rewrite new_messages_listing. cbn [fst].
  case_decide as Hl; [by rewrite drop_0|].
  destruct messages; [by apply elem_of_nil in Hin | cbn in Hl; lia].
Qed.

Lemma recent_displayed_again_witness :
  Samples.m6 ∈ displayed (events (poll_messages "general" 2000
                                    [listing Samples.stream])).
Proof.
  apply (recent_displayed_again Samples.stream "general" 2000 []).
  rewrite list_elem_of_In. cbn. repeat (try (left; reflexivity); right).
Defined.

End DemoProps.


(** * More on [_display_message] *)

Module TimestampProps.
Section WithDatetime.
Context {datetime : Type}.
Variable fromisoformat : string -> option datetime.
Variable strftime_HMS : datetime -> string.

(** A timestamp that is not a string (null, a number, a boolean) has no
    [replace] method; the bare [except] catches that too and the value is
    shown through [str]. *)
Theorem non_string_timestamp_shown (message : Message) (v : pyval) :
  message !! "timestamp" = Some v ->
  (forall s, v <> VStr s) ->
  Display._display_message fromisoformat strftime_HMS message
  = "[" +:+ py_str v +:+ "] "
      +:+ py_str (dict_get message "author" (VStr "Unknown"))
      +:+ ": " +:+ py_str (dict_get message "content" (VStr "")).
Proof.
  intros Hts Hv.
  assert (dict_get message "timestamp" (VStr "") = v) as Hg
    by (unfold dict_get; by rewrite Hts).
  unfold Display._display_message. rewrite Hg.
  assert (Display.time_str fromisoformat strftime_HMS v = v) as ->; [|done].
  destruct v as [| | |s]; try done. by destruct (Hv s).
Qed.

(** A timestamp that parses, once every [Z] in it is replaced by
    [+00:00], is shown as the time [strftime] gives, not as received. *)
Theorem parsed_timestamp_formatted (message : Message) (ts : string) dt :
  message !! "timestamp" = Some (VStr ts) ->
  fromisoformat (replace_Z ts) = Some dt ->
  Display._display_message fromisoformat strftime_HMS message
  = "[" +:+ strftime_HMS dt +:+ "] "
      +:+ py_str (dict_get message "author" (VStr "Unknown"))
      +:+ ": " +:+ py_str (dict_get message "content" (VStr "")).
Proof.
  intros Hts Hp.
  assert (dict_get message "timestamp" (VStr "") = VStr ts) as Hg
    by (unfold dict_get; by rewrite Hts).
  unfold Display._display_message, Display.time_str. rewrite Hg.
  cbn [Display.try_format]. by rewrite Hp.
Qed.

End WithDatetime.

Lemma non_string_timestamp_shown_witness :
  Display._display_message Samples.iso_sample Samples.clock
    {[ "timestamp" := VInt 1714558530; "author" := VStr "ada";
       "content" := VStr "hello" ]}
  = "[1714558530] ada: hello".
Proof.
  rewrite (non_string_timestamp_shown Samples.iso_sample Samples.clock
             _ (VInt 1714558530)); done.
Defined.

Lemma parsed_timestamp_formatted_witness :
  Display._display_message Samples.iso_sample Samples.clock Samples.m2
  = "[10:15:30] bob: hi ada".
Proof.
  rewrite (parsed_timestamp_formatted Samples.iso_sample Samples.clock
             Samples.m2 "2024-05-01T10:15:30Z" "10:15:30"); reflexivity.
Defined.

End TimestampProps.
